(** * Smart Document Assistant (RAG chatbot backend): a shallow embedding

    The development follows the three source files of the backend:
    - [document_processor.py]: text cleaning and chunk records;
    - [rag_engine.py]: vector records, prompt assembly and prompt truncation;
    - [main.py]: upload, the ingestion background task, chat sessions.

    Python [str] values are sequences of Unicode code points: a character is
    a code point in [N], a text is a [list N].  Calls that leave the process
    (PDF extraction, the embedding model, Pinecone, the Sarvam endpoint, the
    clock, uuid4) are parameters of the sections that use them. *)

From Stdlib Require Import ZArith NArith List Ascii String Lia Bool Sorted.
From stdpp Require Import base numbers option list gmap pretty.

Open Scope Z_scope.

(** ** Python strings *)

Module PyStr.

Abbreviation text := (list N).

(** A literal of the source, as code points. *)
Definition lit (s : string) : text :=
  map N_of_ascii (list_ascii_of_string s).

(** [len(s)], an [int]. *)
Definition len (s : text) : Z := Z.of_nat (length s).

(** [s[:n]]: a negative stop counts from the end, and stops outside the
    string are clipped. *)
Definition slice_to (s : text) (n : Z) : text :=
  if n <? 0 then take (Z.to_nat (len s + n)) s else take (Z.to_nat n) s.

(** [s[n:]] for [n >= 0], the only use in the source. *)
Definition slice_from (s : text) (n : Z) : text :=
  drop (Z.to_nat n) s.

(** [l[-k:]] for a positive constant [k]: the last [k] elements. *)
Definition last_k {A} (k : nat) (l : list A) : list A :=
  drop (length l - k)%nat l.

(** [s.startswith(p)], read from the front of [s]. *)
Fixpoint starts_with (p s : text) : bool :=
  match p, s with
  | [], _ => true
  | _ :: _, [] => false
  | a :: p', b :: s' => N.eqb a b && starts_with p' s'
  end.

(** [s.endswith(p)]. *)
Definition ends_with (p s : text) : bool :=
  starts_with (rev p) (rev s).

(** [p in s]. *)
Fixpoint contains (p s : text) : bool :=
  match s with
  | [] => starts_with p []
  | _ :: s' => starts_with p s || contains p s'
  end.

(** [s.rfind(p)]: the highest index at which [p] occurs.  [rfind_from p s i]
    searches [s], whose first character has index [i] in the whole string. *)
Fixpoint rfind_from (p s : text) (i : nat) : option nat :=
  match s with
  | [] => if starts_with p [] then Some i else None
  | _ :: s' =>
      match rfind_from p s' (S i) with
      | Some j => Some j
      | None => if starts_with p s then Some i else None
      end
  end.

Definition rfind (p s : text) : Z :=
  match rfind_from p s 0 with
  | Some i => Z.of_nat i
  | None => -1
  end.

(** [sep.join(parts)]. *)
Fixpoint join (sep : text) (parts : list text) : text :=
  match parts with
  | [] => []
  | [x] => x
  | x :: rest => x ++ sep ++ join sep rest
  end.

(** [str(n)] for a non-negative [int]. *)
Definition str_nat (n : nat) : text := lit (pretty n).

(** Unicode white space, the class behind [str.strip], [str.isspace] and the
    [\s] of [re] on [str] patterns. *)
Definition is_space (c : N) : bool :=
  ((9 <=? c) && (c <=? 13) || (28 <=? c) && (c <=? 32)
   || (c =? 133) || (c =? 160) || (c =? 5760)
   || (8192 <=? c) && (c <=? 8202)
   || (c =? 8232) || (c =? 8233) || (c =? 8239) || (c =? 8287)
   || (c =? 12288))%N.

(** [s.lstrip()]. *)
Fixpoint lstrip (s : text) : text :=
  match s with
  | [] => []
  | c :: s' => if is_space c then lstrip s' else s
  end.

(** [s.rstrip()]: what is left of [s] once its trailing white space is gone;
    a character stays when something stays after it or it is no white space. *)
Fixpoint rstrip (s : text) : text :=
  match s with
  | [] => []
  | c :: s' =>
      match rstrip s' with
      | [] => if is_space c then [] else [c]
      | r => c :: r
      end
  end.

(** [s.strip()]. *)
Definition strip (s : text) : text := rstrip (lstrip s).

(** The line feed, [chr(10)]. *)
Definition nl : text := [10%N].

(** A call either returns a value or raises [Exception(msg)]; [str(e)] of the
    exception is [msg]. *)
Inductive result (A : Type) : Type :=
  | Ok (a : A)
  | Raise (msg : text).
Arguments Ok {A} a.
Arguments Raise {A} msg.

End PyStr.

Import PyStr.

(** ** document_processor.py *)

Module DocumentProcessor.

(** The word class of [re] on the ASCII range: letters, digits, underscore. *)
Definition ascii_word (c : N) : bool :=
  ((48 <=? c) && (c <=? 57) || (65 <=? c) && (c <=? 90)
   || (c =? 95) || (97 <=? c) && (c <=? 122))%N.

(** The punctuation kept by the second substitution of [clean_text]: full
    stop, comma, exclamation and question mark, semicolon, colon, hyphen,
    round and square brackets, single quote, and the double quote (code 34). *)
Definition kept_punct : text := lit ".,!?;:-()[]'" ++ [34%N].

(** The punctuation of the third substitution: [. ! ? , ; :]. *)
Definition closing_punct : text := lit ".!?,;:".

Definition in_class (cls : text) (c : N) : bool := existsb (N.eqb c) cls.

(** [re.sub(cls+, repl, s)] for a character class: every maximal run of
    characters of the class is replaced by [repl]; the replacement is emitted
    where the run ends. *)
Fixpoint sub_runs (cls : N -> bool) (repl : text) (s : text) : text :=
  match s with
  | [] => []
  | c :: s' =>
      if cls c then
        match s' with
        | d :: _ => if cls d then sub_runs cls repl s'
                    else repl ++ sub_runs cls repl s'
        | [] => repl
        end
      else c :: sub_runs cls repl s'
  end.

(** Whether the first character after the leading white space of [s] is
    closing punctuation. *)
Definition punct_follows (s : text) : bool :=
  match lstrip s with
  | p :: _ => in_class closing_punct p
  | [] => false
  end.

(** The third substitution, white space before closing punctuation replaced
    by the punctuation alone: a match starts at a white-space
    character whose run is followed by closing punctuation (the punctuation is
    not white space, so the greedy [\s+] cannot stop earlier); the run is
    dropped and the punctuation stays. *)
Fixpoint sub_space_punct (s : text) : text :=
  match s with
  | [] => []
  | c :: s' =>
      if is_space c && punct_follows s' then sub_space_punct s'
      else c :: sub_space_punct s'
  end.

Section Processor.

(** The word class of [re] above the ASCII range comes from the interpreter's
    Unicode tables. *)
Variable unicode_word : N -> bool.

Definition is_word (c : N) : bool :=
  if (c <? 128)%N then ascii_word c else unicode_word c.

(** The characters the negated class of the second substitution spares:
    word characters, white space and the kept punctuation. *)
Definition kept (c : N) : bool :=
  is_word c || is_space c || in_class kept_punct c.

Definition clean_text (t : text) : text :=
  let t1 := sub_runs is_space (lit " ") t in
  let t2 := sub_runs (fun c => negb (kept c)) [] t1 in
  let t3 := sub_space_punct t2 in
  strip t3.

(** [DocumentProcessor.__init__]: the two settings handed to the splitter. *)
Record processor := {
  chunk_size : Z;
  chunk_overlap : Z
}.

Definition default_processor : processor :=
  {| chunk_size := 1500; chunk_overlap := 300 |}.

(** The separators given to the splitter: paragraph break, line break,
    full stop and space, space, and the empty string. *)
Definition separators : list text :=
  [[10; 10]%N; [10%N]; lit ". "; lit " "; []].

Variable dp : processor.

(** Modelled from the spec: the body of [RecursiveCharacterTextSplitter],
    which [create_chunks] calls and which is no file of the repository.  A text
    is cut wherever the separator begins (the empty separator cuts between any
    two characters); nothing is dropped, so the pieces concatenate to the text. *)
Fixpoint split_on (sep s : text) : list text :=
  match s with
  | [] => [[]]
  | c :: s' =>
      match split_on sep s' with
      | p :: ps =>
          if starts_with sep s' && negb (bool_decide (s' = []))
          then [c] :: p :: ps else (c :: p) :: ps
      | [] => [[c]]
      end
  end.

(** Modelled from the spec: split on the coarsest separator, and recurse with
    the next separator into any piece still longer than [chunk_size]; with no
    separator left the piece is emitted as it is. *)
Fixpoint segments (seps : list text) (s : text) : list text :=
  match seps with
  | [] => [s]
  | sep :: rest =>
      flat_map
        (fun piece =>
           if len piece <=? chunk_size dp then [piece] else segments rest piece)
        (split_on sep s)
  end.

(** Modelled from the spec: the trailing [chunk_overlap] characters of a chunk,
    never more than the chunk has. *)
Definition overlap_tail (cur : text) : text :=
  last_k (Z.to_nat (chunk_overlap dp)) cur.

(** Modelled from the spec: pieces are put back together in order while the
    chunk stays within [chunk_size]; a chunk after the first begins with the
    overlap of the chunk before it. *)
Fixpoint reassemble (cur : text) (pieces : list text) : list text :=
  match pieces with
  | [] => [cur]
  | g :: rest =>
      if len cur + len g <=? chunk_size dp then reassemble (cur ++ g) rest
      else cur :: reassemble (overlap_tail cur ++ g) rest
  end.

(** Modelled from the spec: [text_splitter.split_text]. *)
Definition split_text (s : text) : list text :=
  match segments separators s with
  | [] => []
  | g :: rest => reassemble g rest
  end.

Record chunk_metadata := {
  source : text;
  chunk_id : nat;
  total_chunks : nat;
  char_count : Z
}.

Record chunk := {
  chunk_text : text;
  metadata : chunk_metadata
}.

Definition create_chunks (t : text) (source_file : text) : list chunk :=
  let chunks := split_text t in
  imap (fun idx c =>
          {| chunk_text := c;
             metadata := {| source := source_file;
                            chunk_id := idx;
                            total_chunks := length chunks;
                            char_count := len c |} |})
       chunks.

(** [pdfplumber]: the extracted text of each page of the file at a path, in
    page order (an empty text for a page with none), or the error it raises. *)
Variable pdf_pages : text -> result (list text).

Fixpoint page_texts (page_num : nat) (pages : list text) (acc : text) : text :=
  match pages with
  | [] => acc
  | page_text :: rest =>
      page_texts (S page_num) rest
        (if bool_decide (page_text = []) then acc
         else acc ++ nl ++ nl ++ lit "--- Page " ++ str_nat page_num
                  ++ lit " ---" ++ nl ++ nl ++ page_text)
  end.

Definition extract_text_from_pdf (pdf_path : text) : result text :=
  let wrap e := Raise (lit "Error extracting text from PDF: " ++ e) in
  match pdf_pages pdf_path with
  | Raise e => wrap e
  | Ok pages =>
      let t := page_texts 1 pages [] in
      if bool_decide (strip t = [])
      then wrap (lit "No text could be extracted from PDF")
      else Ok (clean_text t)
  end.

Definition process_pdf (pdf_path filename : text) : result (list chunk) :=
  match extract_text_from_pdf pdf_path with
  | Raise e =>
      Raise (lit "Error processing PDF " ++ filename ++ lit ": " ++ e)
  | Ok t => Ok (create_chunks t filename)
  end.

End Processor.

Section Statistics.

(** Python floats, and the true division [a / b] of two [int]s. *)
Variable float : Type.
Variable true_div : Z -> Z -> float.

Record chunk_statistics := {
  stat_total_chunks : nat;
  avg_chunk_size : float;
  min_chunk_size : Z;
  max_chunk_size : Z;
  total_characters : Z
}.

(** [sum(l)], [min(l)] and [max(l)]; the last two are given the first element
    of the non-empty list apart. *)
Definition sum_of (l : list Z) : Z := foldl Z.add 0 l.
Definition min_of (c : Z) (l : list Z) : Z := foldl Z.min c l.
Definition max_of (c : Z) (l : list Z) : Z := foldl Z.max c l.

(** [get_chunk_statistics]: [None] stands for the empty dictionary returned
    for an empty list. *)
Definition get_chunk_statistics (chunks : list chunk) : option chunk_statistics :=
  match map (fun c => char_count (metadata c)) chunks with
  | [] => None
  | c :: cs =>
      let char_counts := c :: cs in
      Some {| stat_total_chunks := length chunks;
              avg_chunk_size :=
                true_div (sum_of char_counts) (Z.of_nat (length char_counts));
              min_chunk_size := min_of c cs;
              max_chunk_size := max_of c cs;
              total_characters := sum_of char_counts |}
  end.

End Statistics.

End DocumentProcessor.


(** ** Chat turns, shared by main.py and rag_engine.py *)

Inductive role := User | Assistant.

(** [msg['role']] and [msg['role'].upper()]. *)
Definition role_name (r : role) : text :=
  match r with User => lit "user" | Assistant => lit "assistant" end.

Definition role_upper (r : role) : text :=
  match r with User => lit "USER" | Assistant => lit "ASSISTANT" end.

(** The content of a turn.  The message of the user is a string.  The answer
    of the model is the value the JSON of the endpoint holds under [content],
    which [call_llm_api] returns unchecked: a string, or [null], which is
    Python's [None]. *)
Inductive answer := Str (t : text) | Null.

(** [str(a)], as an f-string renders the value. *)
Definition str_of (a : answer) : text :=
  match a with Str t => t | Null => lit "None" end.

Record turn := {
  turn_role : role;
  content : answer;
  timestamp : text
}.

(** ** rag_engine.py *)

Module RAGEngine.

Import DocumentProcessor.

Definition max_length : Z := 2500.

Definition truncation_marker : text :=
  nl ++ lit "...[truncated]..." ++ nl.

(** Lines 146 to 158 of [call_llm_api]: the prompt as it goes on the wire. *)
Definition truncate_prompt (prompt : text) : text :=
  if len prompt >? max_length then
    let question_start := rfind (lit "Question:") prompt in
    if question_start >? 0 then
      let context_part := slice_to prompt question_start in
      let question_part := slice_from prompt question_start in
      let available_space := max_length - len question_part - 100 in
      slice_to context_part available_space ++ truncation_marker
        ++ question_part
    else slice_to prompt max_length
  else prompt.

Definition preamble : text :=
  lit "You are a helpful AI assistant answering questions based on provided documents."
  ++ nl ++ nl ++ lit "Context from documents:" ++ nl.

Definition instructions : text :=
  nl ++ nl ++ lit "Instructions:" ++ nl
  ++ lit "1. Answer the question based ONLY on the provided context" ++ nl
  ++ lit "2. Be specific and cite sources when possible" ++ nl
  ++ lit "3. If the context doesn't contain the answer, say so" ++ nl
  ++ lit "4. Keep your answer concise and relevant" ++ nl
  ++ lit "5. Maintain conversation continuity if there's previous context" ++ nl
  ++ lit "6. No special characters and response should be in plain text" ++ nl
  ++ lit "Answer:".

Definition insufficient_answer : text :=
  lit "I don't have enough information to answer that question based on the uploaded documents.".

(** The history block: the last four turns, one role-labelled line each. *)
Definition history_text (history : list turn) : text :=
  join nl (map (fun msg => role_upper (turn_role msg) ++ lit ": "
                           ++ str_of (content msg))
               (last_k 4 history)).

Definition history_block (history : list turn) : text :=
  if bool_decide (history_text history = []) then []
  else lit "Previous conversation:" ++ nl ++ history_text history ++ nl ++ nl.

Section Engine.

(** Python floats, and [f"{x:.2f}"] on them. *)
Variable float : Type.
Variable fmt_2f : float -> text.

Record context := {
  ctx_text : text;
  ctx_source : text;
  ctx_score : float;
  ctx_chunk_id : nat
}.

Record source_info := {
  src_source : text;
  src_excerpt : text;
  src_relevance_score : float
}.

Record vector_metadata := {
  vm_text : text;
  vm_source : text;
  vm_chunk_id : nat;
  vm_job_id : text
}.

Record vector_record := {
  vec_id : text;
  vec_values : list float;
  vec_metadata : vector_metadata
}.

(** [SentenceTransformer.encode]: one embedding per text, or the error it
    raises on the batch. *)
Variable encode : text -> list float.
Variable encode_error : list text -> option text.

Definition generate_embeddings (texts : list text) : result (list (list float)) :=
  match encode_error texts with
  | Some e => Raise (lit "Error generating embeddings: " ++ e)
  | None => Ok (map encode texts)
  end.

(** Lines 76 to 88 of [store_embeddings]: one record per chunk, numbered by
    [enumerate] over the whole list handed in. *)
Definition build_vectors (chunks : list chunk) (embeddings : list (list float))
    (job_id : text) : list vector_record :=
  imap (fun idx ce =>
          let c := fst ce in
          {| vec_id := job_id ++ lit "_" ++ source (metadata c) ++ lit "_"
                       ++ str_nat idx;
             vec_values := snd ce;
             vec_metadata := {| vm_text := chunk_text c;
                                vm_source := source (metadata c);
                                vm_chunk_id := chunk_id (metadata c);
                                vm_job_id := job_id |} |})
       (zip chunks embeddings).

(** [range(0, n, step)]. *)
Definition range_step (n step : nat) : list nat :=
  map (fun k => (k * step)%nat) (seq 0 ((n + step - 1) / step)%nat).

Definition batch_size : nat := 100.

Definition batches (vectors : list vector_record) : list (list vector_record) :=
  map (fun i => take batch_size (drop i vectors))
      (range_step (length vectors) batch_size).

(** Pinecone's [upsert] on one batch: the error it raises, if any.  The index
    is followed through the records written to it, in order. *)
Variable upsert_error : list vector_record -> option text.

Fixpoint upsert_all (bs : list (list vector_record)) (index : list vector_record)
    : result unit * list vector_record :=
  match bs with
  | [] => (Ok tt, index)
  | b :: rest =>
      match upsert_error b with
      | Some e => (Raise e, index)
      | None => upsert_all rest (index ++ b)
      end
  end.

Definition store_embeddings (chunks : list chunk) (job_id : text)
    (index : list vector_record) : result unit * list vector_record :=
  let wrap e := Raise (lit "Error storing embeddings: " ++ e) in
  match generate_embeddings (map chunk_text chunks) with
  | Raise e => (wrap e, index)
  | Ok embeddings =>
      match upsert_all (batches (build_vectors chunks embeddings job_id)) index with
      | (Raise e, index') => (wrap e, index')
      | (Ok _, index') => (Ok tt, index')
      end
  end.

(** [retrieve_context(query, top_k=5)]: the matches of the index for the
    query, or the error raised on the way. *)
Variable retrieve_context : text -> result (list context).

(** The environment's [SARVAM_API_KEY], and the exchange with the endpoint:
    the content it answers to a posted prompt, or the error raised. *)
Variable sarvam_api_key : option text.
Variable sarvam : text -> result answer.

(** [call_llm_api]: its outcome and the prompts posted to the endpoint. *)
Definition call_llm_api (prompt : text) : result answer * list text :=
  match sarvam_api_key with
  | None => (Raise (lit "SARVAM_API_KEY not found in environment variables"), [])
  | Some key =>
      if bool_decide (key = [])
      then (Raise (lit "SARVAM_API_KEY not found in environment variables"), [])
      else let sent := truncate_prompt prompt in (sarvam sent, [sent])
  end.

Definition context_text (contexts : list context) : text :=
  join (nl ++ nl)
       (map (fun ctx => lit "[Source: " ++ ctx_source ctx ++ lit ", Relevance: "
                        ++ fmt_2f (ctx_score ctx) ++ lit "]" ++ nl ++ ctx_text ctx)
            contexts).

(** Everything of the prompt before the label of the question. *)
Definition prompt_head (contexts : list context) (history : list turn) : text :=
  preamble ++ context_text contexts ++ nl ++ nl ++ history_block history
  ++ lit "User ".

Definition build_prompt (contexts : list context) (history : list turn)
    (query : text) : text :=
  prompt_head contexts history ++ lit "Question: " ++ query ++ instructions.

Definition sources_of (contexts : list context) : list source_info :=
  map (fun ctx => {| src_source := ctx_source ctx;
                     src_excerpt := slice_to (ctx_text ctx) 200 ++ lit "...";
                     src_relevance_score := ctx_score ctx |})
      (take 3 contexts).

(** [get_response]: its outcome and the prompts posted to the endpoint. *)
Definition get_response (query : text) (history : list turn)
    : result (answer * list source_info) * list text :=
  let wrap e := Raise (lit "Error generating response: " ++ e) in
  match retrieve_context query with
  | Raise e => (wrap e, [])
  | Ok [] => (Ok (Str insufficient_answer, []), [])
  | Ok contexts =>
      match call_llm_api (build_prompt contexts history query) with
      | (Raise e, sent) => (wrap e, sent)
      | (Ok response, sent) => (Ok (response, sources_of contexts), sent)
      end
  end.

End Engine.

End RAGEngine.

(** ** main.py *)

Module Main.

Import DocumentProcessor RAGEngine.

Inductive job_state := Pending | Processing | Completed | Failed.

Record file_info := {
  filename : text;
  path : text;
  file_size : Z;
  upload_time : text
}.

Record job := {
  status : job_state;
  progress : Z;
  message : text;
  files_processed : nat;
  total_files : nat;
  files : list file_info
}.

Definition set_status (s : job_state) (j : job) : job :=
  {| status := s; progress := progress j; message := message j;
     files_processed := files_processed j; total_files := total_files j;
     files := files j |}.

Definition set_progress (p : Z) (j : job) : job :=
  {| status := status j; progress := p; message := message j;
     files_processed := files_processed j; total_files := total_files j;
     files := files j |}.

Definition set_message (m : text) (j : job) : job :=
  {| status := status j; progress := progress j; message := m;
     files_processed := files_processed j; total_files := total_files j;
     files := files j |}.

Definition set_files_processed (k : nat) (j : job) : job :=
  {| status := status j; progress := progress j; message := message j;
     files_processed := k; total_files := total_files j;
     files := files j |}.

(** An [UploadFile]: its name and the bytes [await file.read()] gives. *)
Record upload_file := {
  uf_filename : text;
  uf_content : list Byte.byte
}.

Record http_exception := {
  status_code : Z;
  detail : text
}.

Record upload_reply := {
  ur_job_id : text;
  ur_message : text;
  ur_total_files : nat
}.

(** The record dumped to [processed/<job_id>_metadata.json]. *)
Record job_metadata := {
  md_job_id : text;
  md_files : list file_info;
  md_chunks_count : nat;
  md_processed_at : text
}.

(** [os.path.join(dir, name)] for a directory name without a trailing
    separator: an absolute [name] replaces the directory. *)
Definition path_join (dir name : text) : text :=
  if starts_with (lit "/") name then name else dir ++ lit "/" ++ name.

Definition UPLOAD_DIR : text := lit "uploads".
Definition PROCESSED_DIR : text := lit "processed".

Definition max_files : nat := 15.
Definition max_file_bytes : Z := 10 * 1024 * 1024.

Section App.

Variable float : Type.
Variable fmt_2f : float -> text.
Variable unicode_word : N -> bool.
Variable pdf_pages : text -> result (list text).
Variable encode : text -> list float.
Variable encode_error : list text -> option text.
Variable upsert_error : list (vector_record float) -> option text.
Variable retrieve_context : text -> result (list (context float)).
Variable sarvam_api_key : option text.
Variable sarvam : text -> result answer.

(** [str(e)] of the error [ChatResponse] raises when it is given a response
    that is no string. *)
Variable validation_error : text.

(** [int((idx / len(file_paths)) * 50)], a computation on floats. *)
Variable half_scale : nat -> nat -> Z.

(** Whether [open(file_path, "wb")] raises for a path of the upload
    directory: the name of a file is the client's, and one with a slash in it
    makes a path through a directory that does not exist. *)
Variable open_fails : text -> bool.

(** The process-wide state: the two directories (a file by its path; the
    write of the metadata file, whose name is made of the job id alone, is
    taken to succeed), the two in-memory maps, the tasks handed to
    [background_tasks], and the records written to the vector index. *)
Record app := {
  uploads : gmap text (list Byte.byte);
  processed : gmap text job_metadata;
  job_status : gmap text job;
  chat_sessions : gmap text (list turn);
  background : list (text * list file_info);
  index : list (vector_record float)
}.

Definition with_uploads (d : gmap text (list Byte.byte)) (st : app) : app :=
  {| uploads := d; processed := processed st; job_status := job_status st;
     chat_sessions := chat_sessions st; background := background st;
     index := index st |}.

Definition with_processed (d : gmap text job_metadata) (st : app) : app :=
  {| uploads := uploads st; processed := d; job_status := job_status st;
     chat_sessions := chat_sessions st; background := background st;
     index := index st |}.

Definition with_job_status (m : gmap text job) (st : app) : app :=
  {| uploads := uploads st; processed := processed st; job_status := m;
     chat_sessions := chat_sessions st; background := background st;
     index := index st |}.

Definition with_chat_sessions (m : gmap text (list turn)) (st : app) : app :=
  {| uploads := uploads st; processed := processed st;
     job_status := job_status st; chat_sessions := m;
     background := background st; index := index st |}.

Definition with_background (b : list (text * list file_info)) (st : app) : app :=
  {| uploads := uploads st; processed := processed st;
     job_status := job_status st; chat_sessions := chat_sessions st;
     background := b; index := index st |}.

Definition with_index (ix : list (vector_record float)) (st : app) : app :=
  {| uploads := uploads st; processed := processed st;
     job_status := job_status st; chat_sessions := chat_sessions st;
     background := background st; index := ix |}.

(** *** upload_files *)

(** The answer of the server when an exception that is no [HTTPException]
    leaves a handler. *)
Definition internal_server_error : http_exception :=
  {| status_code := 500; detail := lit "Internal Server Error" |}.

(** The loop of [upload_files] from file number [i] on: the outcome and the
    upload directory it leaves.  [now i] is the clock read for file [i].  The
    handler has no [try] around [open]: when it raises, the exception leaves
    the handler with the files written so far in place. *)
Fixpoint save_files (job_id : text) (now : nat -> text) (i : nat)
    (fs : list upload_file) (disk : gmap text (list Byte.byte))
    (file_paths : list file_info)
    : (http_exception + list file_info) * gmap text (list Byte.byte) :=
  match fs with
  | [] => (inr file_paths, disk)
  | f :: rest =>
      if negb (ends_with (lit ".pdf") (uf_filename f)) then
        (inl {| status_code := 400;
                detail := lit "Only PDF files allowed: " ++ uf_filename f |},
         disk)
      else if Z.of_nat (length (uf_content f)) >? max_file_bytes then
        (inl {| status_code := 400;
                detail := lit "File too large: " ++ uf_filename f |},
         disk)
      else
        let file_path :=
          path_join UPLOAD_DIR (job_id ++ lit "_" ++ uf_filename f) in
        if open_fails file_path then (inl internal_server_error, disk) else
        save_files job_id now (S i) rest
          (<[file_path := uf_content f]> disk)
          (file_paths ++ [{| filename := uf_filename f;
                             path := file_path;
                             file_size := Z.of_nat (length (uf_content f));
                             upload_time := now i |}])
  end.

(** [upload_files]; [job_id] is the [uuid4] drawn for the request. *)
Definition upload_files (job_id : text) (now : nat -> text)
    (fs : list upload_file) (st : app) : (http_exception + upload_reply) * app :=
  if (max_files <? length fs)%nat then
    (inl {| status_code := 400; detail := lit "Maximum 15 files allowed" |}, st)
  else
    match save_files job_id now 0 fs (uploads st) [] with
    | (inl e, disk) => (inl e, with_uploads disk st)
    | (inr file_paths, disk) =>
        let st1 := with_uploads disk st in
        let st2 :=
          with_job_status
            (<[job_id := {| status := Pending; progress := 0;
                            message := lit "Files uploaded, processing started";
                            files_processed := 0;
                            total_files := length fs;
                            files := file_paths |}]> (job_status st1)) st1 in
        let st3 := with_background (background st2 ++ [(job_id, file_paths)]) st2 in
        (inr {| ur_job_id := job_id;
                ur_message := lit "Files uploaded successfully";
                ur_total_files := length fs |}, st3)
    end.

(** *** process_documents_task *)

(** [job_status[job_id][field] = value]. *)
Definition set_job (job_id : text) (f : job -> job) (st : app) : app :=
  with_job_status (alter f job_id (job_status st)) st.

Definition doc_processor : processor := default_processor.

(** The loop over the files of the job, from file number [idx] on: the chunks
    gathered or the error raised, the state it ends in, and every state it
    went through, in order. *)
Fixpoint chunk_files (job_id : text) (n idx : nat) (fs : list file_info)
    (st : app) (all_chunks : list chunk)
    : result (list chunk) * app * list app :=
  match fs with
  | [] => (Ok all_chunks, st, [])
  | file :: rest =>
      let st1 := set_job job_id (set_progress (half_scale idx n)) st in
      let st2 :=
        set_job job_id (set_message (lit "Processing " ++ filename file)) st1 in
      match process_pdf unicode_word doc_processor pdf_pages
              (path file) (filename file) with
      | Raise e => (Raise e, st2, [st1; st2])
      | Ok chunks =>
          let st3 := set_job job_id (set_files_processed (idx + 1)) st2 in
          match chunk_files job_id n (S idx) rest st3 (all_chunks ++ chunks) with
          | (r, st', tr) => (r, st', st1 :: st2 :: st3 :: tr)
          end
      end
  end.

(** The handler of the task: the error is recorded on the job. *)
Definition fail_job (job_id e : text) (st : app) : list app :=
  let st1 := set_job job_id (set_status Failed) st in
  let st2 := set_job job_id (set_message (lit "Error: " ++ e)) st1 in
  [st1; st2].

Definition metadata_path (job_id : text) : text :=
  path_join PROCESSED_DIR (job_id ++ lit "_metadata.json").

(** [process_documents_task]: the states the process goes through while the
    task runs, in order ([now] is the clock read for the metadata).  For a job
    that the map does not hold the first assignment raises [KeyError], and so
    does the handler: the task ends with nothing changed. *)
Definition process_documents_task (now : text) (job_id : text)
    (file_paths : list file_info) (st : app) : list app :=
  if bool_decide (job_status st !! job_id = None) then [] else
  let st1 := set_job job_id (set_status Processing) st in
  let st2 := set_job job_id (set_message (lit "Extracting text from PDFs")) st1 in
  match chunk_files job_id (length file_paths) 0 file_paths st2 [] with
  | (Raise e, st3, tr) => [st1; st2] ++ tr ++ fail_job job_id e st3
  | (Ok all_chunks, st3, tr) =>
      let st4 := set_job job_id (set_progress 60) st3 in
      let st5 := set_job job_id (set_message (lit "Generating embeddings")) st4 in
      match store_embeddings float encode encode_error upsert_error
              all_chunks job_id (index st5) with
      | (Raise e, ix) =>
          let st6 := with_index ix st5 in
          [st1; st2] ++ tr ++ [st4; st5; st6] ++ fail_job job_id e st6
      | (Ok _, ix) =>
          let st6 := with_index ix st5 in
          let st7 :=
            with_processed
              (<[metadata_path job_id :=
                   {| md_job_id := job_id; md_files := file_paths;
                      md_chunks_count := length all_chunks;
                      md_processed_at := now |}]> (processed st6)) st6 in
          let st8 := set_job job_id (set_status Completed) st7 in
          let st9 := set_job job_id (set_progress 100) st8 in
          let st10 :=
            set_job job_id
              (set_message (lit "Processing completed successfully")) st9 in
          [st1; st2] ++ tr ++ [st4; st5; st6; st7; st8; st9; st10]
      end
  end.

(** [get_upload_status]: the job record, or 404 for an id the map does not
    hold. *)
Definition get_upload_status (job_id : text) (st : app) : http_exception + job :=
  match job_status st !! job_id with
  | None => inl {| status_code := 404; detail := lit "Job not found" |}
  | Some j => inr j
  end.

(** *** chat and its neighbours *)

Record chat_message := {
  cm_message : text;
  cm_session_id : option text
}.

Record chat_response := {
  cr_response : text;
  cr_sources : list (source_info float);
  cr_session_id : text
}.

(** [chat_message.session_id or str(uuid.uuid4())]: an absent or empty id
    gives way to the [uuid4] drawn for the request. *)
Definition session_of (fresh : text) (m : chat_message) : text :=
  match cm_session_id m with
  | Some s => if bool_decide (s = []) then fresh else s
  | None => fresh
  end.

(** [ChatResponse(response=..., sources=..., session_id=...)], built inside
    the [try] of [chat]: the response has to be a string; for another value
    the constructor raises, and the handler of [chat] answers 500. *)
Definition chat_reply (response : answer) (sources : list (source_info float))
    (session_id : text) : http_exception + chat_response :=
  match response with
  | Str r => inr {| cr_response := r; cr_sources := sources;
                    cr_session_id := session_id |}
  | Null => inl {| status_code := 500;
                   detail := lit "Error generating response: "
                             ++ validation_error |}
  end.

(** [chat]; [fresh] is the [uuid4] drawn for the request, [t_user] and
    [t_assistant] the two clock reads.  The second component is the state the
    request leaves, the third the prompts posted to the generation endpoint.
    The two turns are appended before the reply is built. *)
Definition chat (fresh t_user t_assistant : text) (m : chat_message) (st : app)
    : (http_exception + chat_response) * app * list text :=
  let session_id := session_of fresh m in
  let st1 :=
    if bool_decide (chat_sessions st !! session_id = None)
    then with_chat_sessions (<[session_id := []]> (chat_sessions st)) st
    else st in
  let history := default [] (chat_sessions st1 !! session_id) in
  match get_response float fmt_2f retrieve_context sarvam_api_key sarvam
          (cm_message m) history with
  | (Ok (response, sources), sent) =>
      let h1 := history ++ [{| turn_role := User;
                               content := Str (cm_message m);
                               timestamp := t_user |}] in
      let h2 := h1 ++ [{| turn_role := Assistant; content := response;
                          timestamp := t_assistant |}] in
      (chat_reply response sources session_id,
       with_chat_sessions (<[session_id := h2]> (chat_sessions st1)) st1,
       sent)
  | (Raise e, sent) =>
      (inl {| status_code := 500;
              detail := lit "Error generating response: " ++ e |},
       st1, sent)
  end.

(** [get_chat_history]: the [history] field of the reply. *)
Definition get_chat_history (session_id : text) (st : app) : list turn :=
  match chat_sessions st !! session_id with
  | None => []
  | Some h => h
  end.

Definition clear_chat (session_id : text) (st : app) : app :=
  match chat_sessions st !! session_id with
  | None => st
  | Some _ => with_chat_sessions (<[session_id := []]> (chat_sessions st)) st
  end.

(** [health_check]: the two counters of the reply. *)
Definition active_jobs (st : app) : nat := size (job_status st).
Definition active_sessions (st : app) : nat := size (chat_sessions st).

End App.

End Main.

(** * Properties *)

Import DocumentProcessor RAGEngine Main.

(** ** The answering engine and the chat endpoint *)

Section ChatFacts.

Context {float : Type}.
Variable fmt_2f : float -> text.
Variable retrieve_context : text -> result (list (context float)).
Variable sarvam_api_key : option text.
Variable sarvam : text -> result answer.
Variable validation_error : text.

Let respond := get_response float fmt_2f retrieve_context sarvam_api_key sarvam.
Let chat_with :=
  chat float fmt_2f retrieve_context sarvam_api_key sarvam validation_error.

(** C4: when the index has no match for the query, [get_response] returns the
    fixed answer with an empty source list, raises nothing, and posts no
    prompt to the generation endpoint. *)
Theorem no_match_gives_fixed_answer (query : text) (history : list turn) :
  retrieve_context query = Ok [] ->
  respond query history = (Ok (Str insufficient_answer, []), []).
Proof.
  intros Hnone. unfold respond, get_response. rewrite Hnone. reflexivity.
Qed.

Lemma get_chat_history_insert (sid other : text) (h : list turn)
    (st : app float) :
  get_chat_history float other
    (with_chat_sessions float (<[sid := h]> (chat_sessions float st)) st)
  = if bool_decide (sid = other) then h else get_chat_history float other st.
Proof.
  unfold get_chat_history. cbn [chat_sessions with_chat_sessions].
  case_bool_decide as Heq.
  - subst. by rewrite lookup_insert_eq.
  - by rewrite lookup_insert_ne.
Qed.

(** The session is created before the engine is asked: the history handed to
    it is what the history endpoint showed before the request. *)
Lemma chat_unfold (fresh t_user t_assistant : text) (m : chat_message)
    (st : app float) :
  let sid := session_of fresh m in
  let before := get_chat_history float sid st in
  let st1 :=
    if bool_decide (chat_sessions float st !! sid = None)
    then with_chat_sessions float (<[sid := []]> (chat_sessions float st)) st
    else st in
  get_chat_history float sid st1 = before /\
  (forall other, other <> sid ->
     get_chat_history float other st1 = get_chat_history float other st) /\
  chat_with fresh t_user t_assistant m st =
    match respond (cm_message m) before with
    | (Ok (response, sources), sent) =>
        (chat_reply float validation_error response sources sid,
         with_chat_sessions float
           (<[sid := before
                     ++ [{| turn_role := User; content := Str (cm_message m);
                            timestamp := t_user |}]
                     ++ [{| turn_role := Assistant; content := response;
                            timestamp := t_assistant |}]]>
              (chat_sessions float st1)) st1,
         sent)
    | (Raise e, sent) =>
        (inl {| status_code := 500;
                detail := lit "Error generating response: " ++ e |}, st1, sent)
    end.
Proof.
  intros sid before st1.
  assert (Hsame : get_chat_history float sid st1 = before).
  { subst st1 before. case_bool_decide as Hnew; [|done].
    rewrite get_chat_history_insert, bool_decide_eq_true_2 by done.
    unfold get_chat_history. by rewrite Hnew. }
  split; [exact Hsame|]. split.
  - intros other Hother. subst st1. case_bool_decide; [|done].
    rewrite get_chat_history_insert. by rewrite bool_decide_eq_false_2.
  - unfold chat_with, chat. fold sid. fold st1.
    assert (Hh : default [] (chat_sessions float st1 !! sid) = before).
    { rewrite <- Hsame. unfold get_chat_history.
      by destruct (chat_sessions float st1 !! sid). }
    rewrite Hh. fold respond.
    destruct (respond (cm_message m) before) as [[[response sources]|e] sent];
      [|done].
    by rewrite <- app_assoc.
Qed.


(** C10: a chat request for a session id the map does not hold (given, or
    drawn because none was given) whose generation raises is answered with an
    error, and yet the map now holds that id with no turn: the session count
    of the health endpoint is one higher, and the history endpoint shows an
    empty list for the id. *)
Theorem failed_chat_keeps_new_session (fresh t_user t_assistant : text)
    (m : chat_message) (st : app float) (e : text) (sent : list text) :
  chat_sessions float st !! session_of fresh m = None ->
  respond (cm_message m) [] = (Raise e, sent) ->
  let sid := session_of fresh m in
  let out := chat_with fresh t_user t_assistant m st in
  out.1.1 = inl {| status_code := 500;
                   detail := lit "Error generating response: " ++ e |} /\
  chat_sessions float out.1.2 = <[sid := []]> (chat_sessions float st) /\
  active_sessions float out.1.2 = S (active_sessions float st) /\
  chat_sessions float out.1.2 !! sid = Some [] /\
  get_chat_history float sid out.1.2 = [].
Proof.
  intros Hnew Hfail sid out.
  destruct (chat_unfold fresh t_user t_assistant m st) as (_ & _ & Hchat).
  fold sid in Hchat, Hnew. subst out. rewrite Hchat.
  assert (Hbefore : get_chat_history float sid st = []).
  { unfold get_chat_history. by rewrite Hnew. }
  rewrite Hbefore, Hfail. cbn [fst snd].
  rewrite bool_decide_eq_true_2 by done.
  cbn [chat_sessions with_chat_sessions].
  split; [done|]. split; [done|]. split.
  - unfold active_sessions. cbn [chat_sessions with_chat_sessions].
    by apply map_size_insert_None.
  - unfold get_chat_history. cbn [chat_sessions with_chat_sessions].
    by rewrite lookup_insert_eq.
Qed.

End ChatFacts.

Definition empty_app : app unit :=
  {| uploads := ∅; processed := ∅; job_status := ∅; chat_sessions := ∅;
     background := []; index := [] |}.

Lemma no_match_gives_fixed_answer_witness :
  get_response unit (fun _ => lit "0.00") (fun _ => Ok []) None
    (fun _ => Raise []) (lit "What is the refund policy?") []
  = (Ok (Str insufficient_answer, []), []).
Proof.
  apply (no_match_gives_fixed_answer (fun _ : unit => lit "0.00")
           (fun _ => Ok []) None (fun _ => Raise [])).
  reflexivity.
Defined.

Lemma failed_chat_keeps_new_session_witness :
  let out :=
    chat unit (fun _ => lit "0.00") (fun _ => Raise (lit "index unreachable"))
      None (fun _ => Raise []) (lit "not a string")
      (lit "uuid-1") (lit "t1") (lit "t2")
      {| cm_message := lit "hello"; cm_session_id := None |} empty_app in
  out.1.1 = inl {| status_code := 500;
                   detail := lit "Error generating response: "
                             ++ lit "Error generating response: "
                             ++ lit "index unreachable" |} /\
  chat_sessions unit out.1.2 = <[lit "uuid-1" := []]> ∅ /\
  active_sessions unit out.1.2 = 1%nat /\
  chat_sessions unit out.1.2 !! lit "uuid-1" = Some [] /\
  get_chat_history unit (lit "uuid-1") out.1.2 = [].
Proof.
  apply (failed_chat_keeps_new_session (fun _ : unit => lit "0.00")
           (fun _ => Raise (lit "index unreachable")) None (fun _ => Raise [])
           (lit "not a string") (lit "uuid-1") (lit "t1") (lit "t2")
           {| cm_message := lit "hello"; cm_session_id := None |} empty_app
           (lit "Error generating response: " ++ lit "index unreachable") []).
  - reflexivity.
  - reflexivity.
Defined.



(** ** The upload endpoint *)

Section UploadFacts.

Context {float : Type}.
Variable open_fails : text -> bool.

(** A file that passes the two checks made on it in the loop. *)
Definition acceptable (f : upload_file) : bool :=
  ends_with (lit ".pdf") (uf_filename f)
  && negb (Z.of_nat (length (uf_content f)) >? max_file_bytes).

(** The files of a batch that come before the first one that fails a check. *)
Fixpoint accepted_prefix (fs : list upload_file) : list upload_file :=
  match fs with
  | [] => []
  | f :: rest => if acceptable f then f :: accepted_prefix rest else []
  end.

(** A file of the job whose path can be opened for writing. *)
Definition writable (job_id : text) (f : upload_file) : bool :=
  negb (open_fails (path_join UPLOAD_DIR (job_id ++ lit "_" ++ uf_filename f))).

(** The files of a batch that come before the first one that fails a check
    or cannot be opened: the files the loop writes before it stops. *)
Fixpoint saved_prefix (job_id : text) (fs : list upload_file)
    : list upload_file :=
  match fs with
  | [] => []
  | f :: rest =>
      if acceptable f && writable job_id f
      then f :: saved_prefix job_id rest else []
  end.

(** The upload directory after the given files were written for a job. *)
Definition persisted (job_id : text) (fs : list upload_file)
    (disk : gmap text (list Byte.byte)) : gmap text (list Byte.byte) :=
  foldl (fun d f =>
           <[path_join UPLOAD_DIR (job_id ++ lit "_" ++ uf_filename f)
             := uf_content f]> d)
        disk fs.

(** A batch the endpoint has to refuse: too many files, or a file that is no
    PDF by its name or is larger than 10 MB. *)
Definition violates (fs : list upload_file) : bool :=
  (max_files <? length fs)%nat || existsb (fun f => negb (acceptable f)) fs.

Lemma saved_prefix_writable (job_id : text) (fs : list upload_file) :
  forallb (writable job_id) (accepted_prefix fs) = true ->
  saved_prefix job_id fs = accepted_prefix fs.
Proof.
  induction fs as [|f rest IH]; [done|]. cbn [accepted_prefix saved_prefix].
  destruct (acceptable f); [|done]. cbn [forallb andb]. intros H.
  apply andb_true_iff in H as [Hf Hrest]. by rewrite Hf, IH.
Qed.

Lemma save_files_rejects (job_id : text) (now : nat -> text)
    (fs : list upload_file) :
  existsb (fun f => negb (acceptable f)) fs = true ->
  forall i disk file_paths,
  exists e,
    save_files open_fails job_id now i fs disk file_paths
    = (inl e, persisted job_id (saved_prefix job_id fs) disk)
    /\ status_code e
       = (if forallb (writable job_id) (accepted_prefix fs) then 400 else 500).
Proof.
  induction fs as [|f rest IH]; [discriminate|].
  intros Hbad i disk file_paths.
  cbn [save_files accepted_prefix saved_prefix existsb] in *.
  unfold acceptable at 1 2. unfold acceptable at 1 in Hbad.
  destruct (ends_with (lit ".pdf") (uf_filename f)); cbn [negb andb orb] in *;
    [|eexists; split; reflexivity].
  destruct (Z.of_nat (length (uf_content f)) >? max_file_bytes);
    cbn [negb orb andb] in *; [eexists; split; reflexivity|].
  cbn [forallb].
  assert (Hw : writable job_id f
               = negb (open_fails
                         (path_join UPLOAD_DIR
                            (job_id ++ lit "_" ++ uf_filename f))))
    by reflexivity.
  rewrite !Hw.
  destruct (open_fails
              (path_join UPLOAD_DIR (job_id ++ lit "_" ++ uf_filename f)));
    cbn [negb andb]; [eexists; split; reflexivity|].
  destruct (IH Hbad (S i)
              (<[path_join UPLOAD_DIR (job_id ++ lit "_" ++ uf_filename f)
                 := uf_content f]> disk)
              (file_paths
               ++ [{| filename := uf_filename f;
                      path := path_join UPLOAD_DIR
                                (job_id ++ lit "_" ++ uf_filename f);
                      file_size := Z.of_nat (length (uf_content f));
                      upload_time := now i |}]))
    as (e & He & Hcode).
  exists e. split; [|exact Hcode]. rewrite He. reflexivity.
Qed.

(** C7, as the code has it: a batch that violates a constraint gets no job
    and no task, whatever happens.  A batch of more than 15 files is refused
    with status 400 and leaves the upload directory as it was.  For a batch
    within the count the loop writes the files one by one until it reaches
    the first file that fails a check, which is refused with status 400, or a
    file before it that cannot be opened for writing, which ends the request
    with status 500; the files that come before that file have been written
    by then, and no other. *)
Theorem upload_rejects_violations (job_id : text) (now : nat -> text)
    (fs : list upload_file) (st : app float) :
  violates fs = true ->
  let out := upload_files float open_fails job_id now fs st in
  (exists e, out.1 = inl e /\
     status_code e
     = if (max_files <? length fs)%nat then 400
       else if forallb (writable job_id) (accepted_prefix fs) then 400
       else 500) /\
  job_status float out.2 = job_status float st /\
  background float out.2 = background float st /\
  processed float out.2 = processed float st /\
  chat_sessions float out.2 = chat_sessions float st /\
  index float out.2 = index float st /\
  uploads float out.2 =
    (if (max_files <? length fs)%nat then uploads float st
     else persisted job_id (saved_prefix job_id fs) (uploads float st)) /\
  (forallb (writable job_id) (accepted_prefix fs) = true ->
   saved_prefix job_id fs = accepted_prefix fs).
Proof.
  intros Hv out. subst out. unfold upload_files.
  unfold violates in Hv.
  destruct (max_files <? length fs)%nat eqn:Hmany.
  - cbn [fst snd]. split; [eexists; split; reflexivity|].
    repeat split; try done. apply saved_prefix_writable.
  - cbn [orb] in Hv.
    destruct (save_files_rejects job_id now fs Hv 0%nat (uploads float st) [])
      as (e & He & Hcode).
    rewrite He. cbn [fst snd]. split; [by exists e|].
    repeat split; try done. apply saved_prefix_writable.
Qed.

End UploadFacts.

Definition one_byte : list Byte.byte := [Byte.x25].

Definition pdf_named (name : string) : upload_file :=
  {| uf_filename := lit name; uf_content := one_byte |}.

(** Every path can be opened. *)
Definition opens_all (_ : text) : bool := false.

(** A path below the upload directory can be opened when the name of the
    file has no slash: nothing but files is in that directory. *)
Definition flat_only (p : text) : bool :=
  contains (lit "/") (slice_from p 8).

Lemma upload_rejects_violations_witness :
  let out :=
    upload_files unit opens_all (lit "job-1") (fun _ => lit "t")
      (replicate 16 (pdf_named "a.pdf")) empty_app in
  (exists e, out.1 = inl e /\ status_code e = 400) /\
  job_status unit out.2 = ∅ /\
  background unit out.2 = [] /\
  processed unit out.2 = ∅ /\
  chat_sessions unit out.2 = ∅ /\
  index unit out.2 = [] /\
  uploads unit out.2 = ∅ /\
  (forallb (writable opens_all (lit "job-1"))
     (accepted_prefix (replicate 16 (pdf_named "a.pdf"))) = true ->
   saved_prefix opens_all (lit "job-1") (replicate 16 (pdf_named "a.pdf"))
   = accepted_prefix (replicate 16 (pdf_named "a.pdf"))).
Proof.
  apply (upload_rejects_violations (float := unit) opens_all (lit "job-1")
           (fun _ => lit "t") (replicate 16 (pdf_named "a.pdf")) empty_app).
  vm_compute. reflexivity.
Defined.

(** C7 as stated fails: a batch of a good PDF followed by a text file is
    refused, and the PDF is in the upload directory all the same. *)
Lemma upload_refused_after_a_write :
  let out :=
    upload_files unit opens_all (lit "job-1") (fun _ => lit "t")
      [pdf_named "a.pdf"; pdf_named "notes.txt"] empty_app in
  out.1 = inl {| status_code := 400;
                 detail := lit "Only PDF files allowed: notes.txt" |} /\
  uploads unit out.2 !! lit "uploads/job-1_a.pdf" = Some one_byte /\
  job_status unit out.2 = ∅.
Proof.
  cbv zeta. split; [vm_compute; reflexivity|]. split.
  - unfold upload_files. cbn -[lit]. vm_compute. reflexivity.
  - reflexivity.
Qed.

(** ** Vector records and their ids *)

(** The separator of the parts of a record id. *)
Definition underscore : N := 95%N.

Lemma lit_inj (s1 s2 : string) : lit s1 = lit s2 -> s1 = s2.
Proof.
  unfold lit. intros H.
  assert (Hl : list_ascii_of_string s1 = list_ascii_of_string s2).
  { revert H. generalize (list_ascii_of_string s1) (list_ascii_of_string s2).
    induction l as [|a l IH]; intros [|b l'] H; simplify_eq/=; try done.
    f_equal; [|by apply IH].
    rewrite <- (ascii_N_embedding a), <- (ascii_N_embedding b). by f_equal. }
  rewrite <- (string_of_list_ascii_of_string s1),
          <- (string_of_list_ascii_of_string s2). by f_equal.
Qed.

Lemma lit_String (a : ascii) (s : string) :
  lit (String a s) = N_of_ascii a :: lit s.
Proof. reflexivity. Qed.

Lemma pretty_N_char_not_underscore (d : N) :
  N_of_ascii (pretty_N_char d) <> underscore.
Proof. unfold pretty_N_char. repeat case_match; compute; discriminate. Qed.

Lemma pretty_N_go_no_underscore (x : N) (s : string) :
  Forall (fun c => c <> underscore) (lit s) ->
  Forall (fun c => c <> underscore) (lit (pretty_N_go x s)).
Proof.
  revert s. induction (N.lt_wf_0 x) as [x _ IH]. intros s Hs.
  destruct (decide (x = 0)%N) as [->|Hx].
  - by rewrite pretty_N_go_0.
  - rewrite pretty_N_go_step by lia. apply IH.
    + apply N.div_lt; lia.
    + rewrite lit_String. constructor; [apply pretty_N_char_not_underscore|done].
Qed.

Lemma str_nat_no_underscore (n : nat) :
  Forall (fun c => c <> underscore) (str_nat n).
Proof.
  unfold str_nat, pretty, pretty_nat, pretty, pretty_N.
  case_decide.
  - repeat constructor; compute; discriminate.
  - apply pretty_N_go_no_underscore. constructor.
Qed.

Lemma str_nat_inj (i j : nat) : str_nat i = str_nat j -> i = j.
Proof. unfold str_nat. intros H. apply lit_inj in H. by apply (inj pretty). Qed.

Lemma before_underscore (x y p q : text) :
  Forall (fun c => c <> underscore) x ->
  Forall (fun c => c <> underscore) y ->
  x ++ underscore :: p = y ++ underscore :: q -> x = y.
Proof.
  revert y. induction x as [|a x IH]; intros [|b y] Hx Hy H; simplify_eq/=.
  - done.
  - by inversion Hy.
  - by inversion Hx.
  - inversion Hx; inversion Hy; subst. f_equal. by eapply IH.
Qed.

Lemma after_last_underscore (a b d1 d2 : text) :
  Forall (fun c => c <> underscore) d1 ->
  Forall (fun c => c <> underscore) d2 ->
  a ++ lit "_" ++ d1 = b ++ lit "_" ++ d2 -> d1 = d2.
Proof.
  intros H1 H2 H. apply (f_equal (@rev N)) in H.
  rewrite !rev_app_distr in H. change (rev (lit "_")) with [underscore] in H.
  rewrite <- !app_assoc in H. change ([underscore] ++ ?l) with (underscore :: l) in H.
  apply before_underscore in H.
  - by apply rev_inj in H.
  - by apply Forall_rev.
  - by apply Forall_rev.
Qed.

Section StoreFacts.

Context {float : Type}.
Variable encode : text -> list float.
Variable encode_error : list text -> option text.
Variable upsert_error : list (vector_record float) -> option text.

Lemma take_steps {A} (b m : nat) (l : list A) :
  concat (map (fun i => take b (drop i l)) (map (fun k => (k * b)%nat) (seq 0 m)))
  = take (m * b) l.
Proof.
  induction m as [|m IH]; [done|].
  rewrite seq_S, !map_app, concat_app, IH. cbn [map concat Nat.add].
  rewrite app_nil_r, take_take_drop. f_equal. lia.
Qed.

Lemma batches_concat (vs : list (vector_record float)) :
  concat (batches float vs) = vs.
Proof.
  unfold batches, range_step. rewrite take_steps. apply take_ge.
  unfold batch_size. 
  pose proof (Nat.div_mod_eq (length vs + 100 - 1) 100).
  pose proof (Nat.mod_upper_bound (length vs + 100 - 1) 100). lia.
Qed.

Lemma upsert_all_written (bs : list (list (vector_record float)))
    (index : list (vector_record float)) :
  (exists k, (upsert_all float upsert_error bs index).2 = index ++ take k (concat bs)) /\
  ((upsert_all float upsert_error bs index).1 = Ok tt ->
   (upsert_all float upsert_error bs index).2 = index ++ concat bs).
Proof.
  revert index. induction bs as [|b bs IH]; intros index; cbn [upsert_all concat].
  - split; [exists 0%nat|]; by rewrite ?take_nil, app_nil_r.
  - destruct (upsert_error b).
    + split; [exists 0%nat; by rewrite take_0, app_nil_r|discriminate].
    + destruct (IH (index ++ b)) as [[k Hk] Hall]. split.
      * exists (length b + k)%nat. rewrite Hk, <- app_assoc. f_equal.
        by rewrite take_app_add.
      * intros Hok. rewrite (Hall Hok). by rewrite app_assoc.
Qed.

Lemma lookup_map {A B} (f : A -> B) (l : list A) (i : nat) :
  map f l !! i = f <$> (l !! i).
Proof. revert i. induction l as [|a l IH]; intros [|i]; cbn; auto. Qed.

Lemma build_vectors_lookup (chunks : list chunk) (embs : list (list float))
    (job_id : text) (i : nat) :
  build_vectors float chunks embs job_id !! i =
  match chunks !! i, embs !! i with
  | Some c, Some v =>
      Some {| vec_id := job_id ++ lit "_" ++ source (metadata c) ++ lit "_"
                        ++ str_nat i;
              vec_values := v;
              vec_metadata := {| vm_text := chunk_text c;
                                 vm_source := source (metadata c);
                                 vm_chunk_id := chunk_id (metadata c);
                                 vm_job_id := job_id |} |}
  | _, _ => None
  end.
Proof.
  unfold build_vectors. rewrite list_lookup_imap, lookup_zip_with.
  destruct (chunks !! i); [|done]. by destruct (embs !! i).
Qed.

Lemma build_vectors_ids_NoDup (chunks : list chunk) (embs : list (list float))
    (job_id : text) :
  NoDup (map (vec_id float) (build_vectors float chunks embs job_id)).
Proof.
  assert (Hid : forall i x,
            map (vec_id float) (build_vectors float chunks embs job_id) !! i
            = Some x ->
            exists a, x = a ++ lit "_" ++ str_nat i).
  { intros i x Hi. rewrite lookup_map, build_vectors_lookup in Hi.
    destruct (chunks !! i) as [c|]; [|done]. destruct (embs !! i); [|done].
    injection Hi as <-. exists (job_id ++ lit "_" ++ source (metadata c)).
    cbn [vec_id]. by rewrite <- !app_assoc. }
  apply NoDup_alt. intros i j x Hi Hj.
  destruct (Hid i x Hi) as [a Ha]. destruct (Hid j x Hj) as [b Hb].
  apply str_nat_inj. rewrite Ha in Hb.
  eapply after_last_underscore; [apply str_nat_no_underscore..|exact Hb].
Qed.

(** What [store_embeddings] leaves in the index: a prefix of the records
    built for the chunks, and all of them when it returns. *)
Lemma store_embeddings_written (chunks : list chunk) (job_id : text)
    (index : list (vector_record float)) :
  let vs := build_vectors float chunks (map encode (map chunk_text chunks)) job_id in
  let out := store_embeddings float encode encode_error upsert_error
               chunks job_id index in
  (exists k, out.2 = index ++ take k vs) /\
  (out.1 = Ok tt -> out.2 = index ++ vs).
Proof.
  intros vs out. subst out. unfold store_embeddings, generate_embeddings.
  destruct (encode_error (map chunk_text chunks)).
  - split; [|discriminate]. exists 0%nat. by rewrite take_0, app_nil_r.
  - fold vs. destruct (upsert_all_written (batches float vs) index)
      as [[k Hk] Hall].
    rewrite batches_concat in Hk, Hall.
    destruct (upsert_all float upsert_error (batches float vs) index)
      as [[[]|e] ix]; cbn [fst snd] in *.
    + split; [by exists k|]. intros _. by apply Hall.
    + split; [by exists k|discriminate].
Qed.

(** C8, as the code has it: the record made for a chunk has the id
    [job_id_source_n] where [n] is the position of the chunk in the list of
    all chunks handed to [store_embeddings] (the chunks of every document of
    the run, one list), its metadata carries the chunk's own [chunk_id], the
    ids of the records of a run are pairwise different, and what reaches the
    index is a prefix of these records, all of them when the call returns. *)
Theorem vector_ids_by_position (chunks : list chunk) (job_id : text)
    (index : list (vector_record float)) :
  let vs := build_vectors float chunks (map encode (map chunk_text chunks)) job_id in
  let out := store_embeddings float encode encode_error upsert_error
               chunks job_id index in
  (forall i c, chunks !! i = Some c ->
     exists r, vs !! i = Some r /\
       vec_id float r = job_id ++ lit "_" ++ source (metadata c) ++ lit "_"
                        ++ str_nat i /\
       vm_chunk_id (vec_metadata float r) = chunk_id (metadata c)) /\
  length vs = length chunks /\
  NoDup (map (vec_id float) vs) /\
  (exists k, out.2 = index ++ take k vs) /\
  (out.1 = Ok tt -> out.2 = index ++ vs).
Proof.
  intros vs out. split; [|split; [|split]].
  - intros i c Hc. subst vs. rewrite build_vectors_lookup, Hc.
    rewrite !lookup_map, Hc. cbn. eexists. split; [reflexivity|done].
  - subst vs. unfold build_vectors. rewrite length_imap, length_zip.
    rewrite !length_map. lia.
  - apply build_vectors_ids_NoDup.
  - apply store_embeddings_written.
Qed.

End StoreFacts.

Definition one_chunk (t src : string) : chunk :=
  {| chunk_text := lit t;
     metadata := {| source := lit src; chunk_id := 0; total_chunks := 1;
                    char_count := len (lit t) |} |}.

(** C8 as stated fails: the only chunk of the second document has [chunk_id]
    0 and its record gets the id ending in 1. *)
Lemma second_document_id_counts_on :
  let vs := build_vectors unit [one_chunk "alpha" "a.pdf"; one_chunk "beta" "b.pdf"]
              [[]; []] (lit "job-1") in
  map (vec_id unit) vs = [lit "job-1_a.pdf_0"; lit "job-1_b.pdf_1"] /\
  map (fun r => vm_chunk_id (vec_metadata unit r)) vs = [0%nat; 0%nat].
Proof. vm_compute. split; reflexivity. Qed.

(** ** The chunker *)

Section ChunkFacts.

Variable dp : processor.

Lemma split_on_concat (sep s : text) : concat (split_on sep s) = s.
Proof.
  induction s as [|c s IH]; [done|]. cbn [split_on].
  destruct (split_on sep s) as [|p ps]; [by subst|].
  destruct (starts_with sep s && negb (bool_decide (s = [])));
    cbn [concat] in *; rewrite <- IH; reflexivity.
Qed.

Lemma split_on_cons (sep s : text) : exists p ps, split_on sep s = p :: ps.
Proof.
  destruct s as [|c s]; [by eexists _, _|]. cbn [split_on].
  destruct (split_on sep s) as [|p ps]; [by eexists _, _|].
  destruct (starts_with sep s && negb (bool_decide (s = []))); by eexists _, _.
Qed.

Lemma len_app (a b : text) : len (a ++ b) = len a + len b.
Proof. unfold len. rewrite length_app. lia. Qed.

Lemma len_nonneg (a : text) : 0 <= len a.
Proof. unfold len. lia. Qed.

Lemma pieces_within (ps : list text) :
  Forall (fun p => len p <= len (concat ps)) ps.
Proof.
  induction ps as [|p ps IH]; [constructor|]. cbn [concat].
  rewrite len_app. constructor.
  - pose proof (len_nonneg (concat ps)). lia.
  - eapply Forall_impl; [exact IH|]. cbn. intros q Hq.
    pose proof (len_nonneg p). lia.
Qed.

Lemma short_pieces_stay (seps : list text) (ps : list text) :
  Forall (fun p => len p <= chunk_size dp) ps ->
  flat_map (fun piece => if len piece <=? chunk_size dp then [piece]
                         else segments dp seps piece) ps = ps.
Proof.
  induction 1 as [|p ps Hp _ IH]; [done|]. cbn [flat_map].
  rewrite IH. by rewrite (proj2 (Z.leb_le _ _) Hp).
Qed.

Lemma segments_cons (sep : text) (rest : list text) (s : text) :
  segments dp (sep :: rest) s =
  flat_map (fun piece => if len piece <=? chunk_size dp then [piece]
                         else segments dp rest piece) (split_on sep s).
Proof. reflexivity. Qed.

Lemma reassemble_short (cur : text) (ps : list text) :
  len (cur ++ concat ps) <= chunk_size dp ->
  reassemble dp cur ps = [cur ++ concat ps].
Proof.
  revert cur. induction ps as [|g ps IH]; intros cur Hlen; cbn [reassemble concat].
  - by rewrite app_nil_r.
  - cbn [concat] in Hlen. rewrite !len_app in Hlen.
    pose proof (len_nonneg (concat ps)).
    rewrite (proj2 (Z.leb_le _ _)) by lia.
    rewrite IH, <- app_assoc; [done|]. rewrite !len_app. lia.
Qed.

Lemma split_text_short (t : text) :
  len t <= chunk_size dp -> split_text dp t = [t].
Proof.
  intros Hlen. unfold split_text, separators.
  rewrite segments_cons, short_pieces_stay.
  - destruct (split_on_cons [10%N; 10%N] t) as (p & ps & Hsplit).
    pose proof (split_on_concat [10%N; 10%N] t) as Hcat.
    rewrite Hsplit in *. cbn [concat] in Hcat.
    rewrite reassemble_short; rewrite Hcat; done.
  - eapply Forall_impl; [apply pieces_within|]. cbn. intros p Hp.
    rewrite split_on_concat in Hp. lia.
Qed.

(** The chunks of a text the splitter leaves whole. *)
Lemma create_chunks_short (t source_file : text) :
  len t <= chunk_size dp ->
  create_chunks dp t source_file =
    [{| chunk_text := t;
        metadata := {| source := source_file; chunk_id := 0;
                       total_chunks := 1; char_count := len t |} |}].
Proof.
  intros Hlen. unfold create_chunks. by rewrite split_text_short.
Qed.

Variable unicode_word : N -> bool.

(** C6: a cleaned text no longer than [chunk_size] is chunked into exactly one
    chunk, whose text is the cleaned text, with [chunk_id] 0 and
    [total_chunks] 1. *)
Theorem short_text_is_one_chunk (raw source_file : text) :
  len (clean_text unicode_word raw) <= chunk_size dp ->
  create_chunks dp (clean_text unicode_word raw) source_file =
    [{| chunk_text := clean_text unicode_word raw;
        metadata := {| source := source_file; chunk_id := 0;
                       total_chunks := 1;
                       char_count := len (clean_text unicode_word raw) |} |}].
Proof. apply create_chunks_short. Qed.

End ChunkFacts.

Lemma short_text_is_one_chunk_witness :
  create_chunks default_processor
    (clean_text (fun _ => false) (lit "  Invoice  # 42 :  paid ."))
    (lit "invoice.pdf")
  = [{| chunk_text := lit "Invoice  42: paid.";
        metadata := {| source := lit "invoice.pdf"; chunk_id := 0;
                       total_chunks := 1; char_count := 18 |} |}].
Proof.
  apply (short_text_is_one_chunk default_processor (fun _ => false)
           (lit "  Invoice  # 42 :  paid .") (lit "invoice.pdf")).
  vm_compute. discriminate.
Defined.

(** ** The text normalizer *)

(** What may follow a white-space character: no white space; with [closing],
    no closing punctuation either; with [strict], the text may not end there. *)
Definition next_ok (strict closing : bool) (o : option N) : bool :=
  match o with
  | Some d => negb (is_space d) && negb (closing && in_class closing_punct d)
  | None => negb strict
  end.

(** Every white-space character of the text is a plain space, followed as
    [nxt] asks. *)
Fixpoint spaces_ok (nxt : option N -> bool) (s : text) : bool :=
  match s with
  | [] => true
  | c :: s' =>
      (negb (is_space c) || (N.eqb c 32 && nxt (head s'))) && spaces_ok nxt s'
  end.

(** The text does not begin with white space. *)
Definition no_lead (s : text) : bool :=
  match s with
  | c :: _ => negb (is_space c)
  | [] => true
  end.

Section CleanFacts.

Variable unicode_word : N -> bool.

Let kept := kept unicode_word.
Let clean_text := clean_text unicode_word.

Lemma sub_runs_skip (cls : N -> bool) (repl : text) (c : N) (s : text) :
  cls c = false -> sub_runs cls repl (c :: s) = c :: sub_runs cls repl s.
Proof. intros H. cbn [sub_runs]. by rewrite H. Qed.

Lemma sub_runs_end (cls : N -> bool) (repl : text) (c : N) :
  cls c = true -> sub_runs cls repl [c] = repl.
Proof. intros H. cbn [sub_runs]. by rewrite H. Qed.

Lemma sub_runs_inside (cls : N -> bool) (repl : text) (c d : N) (t : text) :
  cls c = true -> cls d = true ->
  sub_runs cls repl (c :: d :: t) = sub_runs cls repl (d :: t).
Proof. intros Hc Hd. cbn [sub_runs]. by rewrite Hc, Hd. Qed.

Lemma sub_runs_last (cls : N -> bool) (repl : text) (c d : N) (t : text) :
  cls c = true -> cls d = false ->
  sub_runs cls repl (c :: d :: t) = repl ++ d :: sub_runs cls repl t.
Proof. intros Hc Hd. cbn [sub_runs]. by rewrite Hc, Hd. Qed.

Lemma collapse_ok (x : text) :
  spaces_ok (next_ok false false) (sub_runs is_space (lit " ") x) = true.
Proof.
  induction x as [|c [|d t] IH]; [done| |].
  - destruct (is_space c) eqn:Hc.
    + by rewrite sub_runs_end.
    + rewrite sub_runs_skip by done. cbn. by rewrite Hc.
  - destruct (is_space c) eqn:Hc.
    + destruct (is_space d) eqn:Hd.
      * by rewrite sub_runs_inside.
      * rewrite sub_runs_last by done. rewrite sub_runs_skip in IH by done.
        change (lit " " ++ ?l) with (32%N :: l).
        cbn [spaces_ok head next_ok] in *. rewrite IH, Hd. done.
    + rewrite sub_runs_skip by done. cbn [spaces_ok]. by rewrite Hc, IH.
Qed.

Lemma collapse_fixed (s : text) :
  spaces_ok (next_ok false false) s = true ->
  sub_runs is_space (lit " ") s = s.
Proof.
  induction s as [|c [|d t] IH]; [done| |]; cbn [spaces_ok head next_ok];
    intros H; apply andb_true_iff in H as [Hc Hs].
  - destruct (is_space c) eqn:Hsp.
    + rewrite sub_runs_end by done. cbn in Hc.
      apply andb_true_iff in Hc as [Hc _]. by apply N.eqb_eq in Hc as ->.
    + by rewrite sub_runs_skip.
  - specialize (IH Hs). destruct (is_space c) eqn:Hsp.
    + cbn [negb orb] in Hc. apply andb_true_iff in Hc as [Hc Hd].
      apply N.eqb_eq in Hc as ->. apply andb_true_iff in Hd as [Hd _].
      apply negb_true_iff in Hd.
      rewrite sub_runs_last by done. rewrite sub_runs_skip in IH by done.
      change (lit " " ++ ?l) with (32%N :: l). by rewrite IH.
    + rewrite sub_runs_skip by done. by rewrite IH.
Qed.

Lemma removal_fixed (s : text) :
  forallb kept s = true -> sub_runs (fun c => negb (kept c)) [] s = s.
Proof.
  induction s as [|c s IH]; [done|]. cbn [forallb]. intros H.
  apply andb_true_iff in H as [Hc Hs].
  rewrite sub_runs_skip by (by rewrite Hc). f_equal. by apply IH.
Qed.

Lemma removal_kept (s : text) :
  forallb kept (sub_runs (fun c => negb (kept c)) [] s) = true.
Proof.
  induction s as [|c [|d t] IH]; [done| |].
  - destruct (kept c) eqn:Hc.
    + rewrite sub_runs_skip by (by rewrite Hc). cbn. by rewrite Hc.
    + by rewrite sub_runs_end by (by rewrite Hc).
  - destruct (kept c) eqn:Hc.
    + rewrite sub_runs_skip by (by rewrite Hc). cbn [forallb]. by rewrite Hc, IH.
    + destruct (kept d) eqn:Hd.
      * rewrite sub_runs_last by (by rewrite ?Hc, ?Hd).
        by rewrite sub_runs_skip in IH by (by rewrite Hd).
      * by rewrite sub_runs_inside by (by rewrite ?Hc, ?Hd).
Qed.

Lemma kept_space : kept 32%N = true.
Proof. reflexivity. Qed.

Lemma collapse_kept (x : text) :
  forallb kept x = true -> forallb kept (sub_runs is_space (lit " ") x) = true.
Proof.
  induction x as [|c [|d t] IH]; [done| |]; cbn [forallb]; intros H;
    apply andb_true_iff in H as [Hc Hs].
  - destruct (is_space c) eqn:Hsp.
    + by rewrite sub_runs_end.
    + rewrite sub_runs_skip by done. cbn. by rewrite Hc.
  - specialize (IH Hs). destruct (is_space c) eqn:Hsp.
    + destruct (is_space d) eqn:Hd.
      * by rewrite sub_runs_inside.
      * rewrite sub_runs_last by done. rewrite sub_runs_skip in IH by done.
        change (lit " " ++ ?l) with (32%N :: l). cbn [forallb] in *.
        by rewrite kept_space, IH.
    + rewrite sub_runs_skip by done. cbn [forallb]. by rewrite Hc, IH.
Qed.

(** The punctuation of the third substitution is no white space: a match of
    that substitution takes the whole run of white space before it. *)
Lemma closing_punct_not_space (c : N) :
  in_class closing_punct c = true -> is_space c = false.
Proof.
  unfold in_class, closing_punct. cbn [lit list_ascii_of_string map existsb].
  rewrite !orb_true_iff, !N.eqb_eq.
  intros [->|[->|[->|[->|[->|[->|[=]]]]]]]; reflexivity.
Qed.

Lemma ssp_skip (c : N) (s : text) :
  is_space c = false -> sub_space_punct (c :: s) = c :: sub_space_punct s.
Proof. intros H. cbn [sub_space_punct]. by rewrite H. Qed.

Lemma ssp_drop (c : N) (s : text) :
  is_space c = true -> punct_follows s = true ->
  sub_space_punct (c :: s) = sub_space_punct s.
Proof. intros Hc Hp. cbn [sub_space_punct]. by rewrite Hc, Hp. Qed.

Lemma ssp_keep (c : N) (s : text) :
  punct_follows s = false ->
  sub_space_punct (c :: s) = c :: sub_space_punct s.
Proof. intros Hp. cbn [sub_space_punct]. by rewrite Hp, andb_false_r. Qed.

Lemma punct_follows_nil : punct_follows [] = false.
Proof. reflexivity. Qed.

Lemma punct_follows_cons (d : N) (t : text) :
  is_space d = false -> punct_follows (d :: t) = in_class closing_punct d.
Proof. intros Hd. unfold punct_follows. cbn [lstrip]. by rewrite Hd. Qed.

Lemma ssp_ok (s : text) :
  spaces_ok (next_ok false false) s = true ->
  spaces_ok (next_ok false true) (sub_space_punct s) = true.
Proof.
  induction s as [|c [|d t] IH]; [done| |]; cbn [spaces_ok head next_ok];
    intros H; apply andb_true_iff in H as [Hc Hs].
  - rewrite ssp_keep by apply punct_follows_nil.
    cbn [sub_space_punct spaces_ok head next_ok]. by rewrite Hc.
  - specialize (IH Hs). destruct (is_space c) eqn:Hsp.
    + cbn [negb orb] in Hc. apply andb_true_iff in Hc as [Hc Hd].
      apply andb_true_iff in Hd as [Hd _]. apply negb_true_iff in Hd.
      destruct (punct_follows (d :: t)) eqn:Hp.
      * by rewrite ssp_drop.
      * rewrite ssp_keep by done. rewrite ssp_skip in * by done.
        rewrite punct_follows_cons in Hp by done.
        cbn [spaces_ok head next_ok] in *. rewrite Hsp, Hc, Hd, Hp.
        rewrite Hd in IH. cbn [negb orb andb] in *. exact IH.
    + rewrite ssp_skip by done. cbn [spaces_ok]. by rewrite Hsp, IH.
Qed.

Lemma ssp_fixed (s : text) :
  spaces_ok (next_ok false true) s = true -> sub_space_punct s = s.
Proof.
  induction s as [|c [|d t] IH]; [done| |]; cbn [spaces_ok head next_ok];
    intros H; apply andb_true_iff in H as [Hc Hs].
  - by rewrite ssp_keep by apply punct_follows_nil.
  - specialize (IH Hs). destruct (is_space c) eqn:Hsp.
    + cbn [negb orb] in Hc. apply andb_true_iff in Hc as [_ Hd].
      apply andb_true_iff in Hd as [Hd Hp]. apply negb_true_iff in Hd.
      cbn [andb] in Hp. apply negb_true_iff in Hp.
      rewrite ssp_keep by (by rewrite punct_follows_cons). by rewrite IH.
    + rewrite ssp_skip by done. by rewrite IH.
Qed.

Lemma ssp_kept (s : text) :
  forallb kept s = true -> forallb kept (sub_space_punct s) = true.
Proof.
  induction s as [|c s IH]; [done|]. cbn [forallb sub_space_punct]. intros H.
  apply andb_true_iff in H as [Hc Hs].
  destruct (is_space c && punct_follows s); [by apply IH|].
  cbn [forallb]. by rewrite Hc, IH.
Qed.

Lemma lstrip_ok (nxt : option N -> bool) (s : text) :
  spaces_ok nxt s = true -> spaces_ok nxt (lstrip s) = true.
Proof.
  induction s as [|c s IH]; [done|]. intros H. cbn [lstrip].
  destruct (is_space c); [|done]. apply IH.
  cbn [spaces_ok] in H. by apply andb_true_iff in H as [_ H].
Qed.

Lemma lstrip_no_lead (s : text) : no_lead (lstrip s) = true.
Proof.
  induction s as [|c s IH]; [done|]. cbn [lstrip].
  destruct (is_space c) eqn:Hc; [done|]. cbn. by rewrite Hc.
Qed.

Lemma lstrip_kept (s : text) :
  forallb kept s = true -> forallb kept (lstrip s) = true.
Proof.
  induction s as [|c s IH]; [done|]. intros H. cbn [lstrip].
  destruct (is_space c); [|done]. apply IH.
  cbn [forallb] in H. by apply andb_true_iff in H as [_ H].
Qed.

Lemma lstrip_fixed (s : text) : no_lead s = true -> lstrip s = s.
Proof.
  destruct s as [|c s]; [done|]. cbn. intros H.
  apply negb_true_iff in H. by rewrite H.
Qed.

Lemma rstrip_head (s : text) (d : N) (r : text) :
  rstrip s = d :: r -> exists t, s = d :: t.
Proof.
  destruct s as [|c s]; [done|]. cbn [rstrip].
  destruct (rstrip s); [destruct (is_space c)|]; intros [= <- _]; by eexists.
Qed.

Lemma rstrip_ok (s : text) :
  spaces_ok (next_ok false true) s = true ->
  spaces_ok (next_ok true true) (rstrip s) = true.
Proof.
  induction s as [|c s IH]; [done|]. cbn [spaces_ok]. intros H.
  apply andb_true_iff in H as [Hc Hs]. specialize (IH Hs). cbn [rstrip].
  destruct (rstrip s) as [|d r] eqn:Hr.
  - destruct (is_space c) eqn:Hsp; [done|]. cbn. by rewrite Hsp.
  - destruct (rstrip_head _ _ _ Hr) as [t ->].
    cbn [spaces_ok head next_ok] in *. rewrite IH, andb_true_r.
    destruct (is_space c); [|done]. cbn [negb orb] in *. exact Hc.
Qed.

Lemma rstrip_no_lead (s : text) :
  no_lead s = true -> no_lead (rstrip s) = true.
Proof.
  destruct (rstrip s) as [|d r] eqn:Hr; [done|].
  destruct (rstrip_head _ _ _ Hr) as [t ->]. done.
Qed.

Lemma rstrip_kept (s : text) :
  forallb kept s = true -> forallb kept (rstrip s) = true.
Proof.
  induction s as [|c s IH]; [done|]. cbn [forallb rstrip]. intros H.
  apply andb_true_iff in H as [Hc Hs]. specialize (IH Hs).
  destruct (rstrip s).
  - destruct (is_space c); [done|]. cbn. by rewrite Hc.
  - cbn [forallb] in *. by rewrite Hc, IH.
Qed.

Lemma rstrip_fixed (s : text) :
  spaces_ok (next_ok true true) s = true -> rstrip s = s.
Proof.
  induction s as [|c s IH]; [done|]. cbn [spaces_ok]. intros H.
  apply andb_true_iff in H as [Hc Hs]. cbn [rstrip]. rewrite (IH Hs).
  destruct s as [|d t]; [|done].
  destruct (is_space c); [|done]. cbn in Hc. by rewrite andb_false_r in Hc.
Qed.

Lemma spaces_ok_weaken (n1 n2 : option N -> bool) (s : text) :
  (forall o, n1 o = true -> n2 o = true) ->
  spaces_ok n1 s = true -> spaces_ok n2 s = true.
Proof.
  intros Hn. induction s as [|c s IH]; [done|]. cbn [spaces_ok]. intros H.
  apply andb_true_iff in H as [Hc Hs]. rewrite (IH Hs), andb_true_r.
  destruct (is_space c); [|done]. cbn [negb orb] in *.
  apply andb_true_iff in Hc as [Hc Hn1]. by rewrite Hc, (Hn _ Hn1).
Qed.

Lemma next_ok_weaken (s1 c1 s2 c2 : bool) (o : option N) :
  implb s2 s1 = true -> implb c2 c1 = true ->
  next_ok s1 c1 o = true -> next_ok s2 c2 o = true.
Proof.
  destruct o as [d|]; cbn; [|by destruct s1, s2].
  destruct (is_space d); [done|]. cbn.
  destruct c1, c2, (in_class closing_punct d); done.
Qed.

(** A text in the shape [clean_text] leaves is left as it is. *)
Lemma clean_text_fixed (r : text) :
  forallb kept r = true -> no_lead r = true ->
  spaces_ok (next_ok true true) r = true ->
  clean_text r = r.
Proof.
  intros Hk Hl Hs. unfold clean_text, DocumentProcessor.clean_text. cbv zeta.
  rewrite collapse_fixed
    by (eapply spaces_ok_weaken; [|exact Hs]; intros o; by apply next_ok_weaken).
  fold kept. rewrite removal_fixed by done.
  rewrite ssp_fixed
    by (eapply spaces_ok_weaken; [|exact Hs]; intros o; by apply next_ok_weaken).
  unfold strip. rewrite lstrip_fixed by done. by apply rstrip_fixed.
Qed.

(** [clean_text] brings a text without characters to remove into that
    shape. *)
Lemma clean_text_shape (x : text) :
  forallb kept x = true ->
  forallb kept (clean_text x) = true /\
  no_lead (clean_text x) = true /\
  spaces_ok (next_ok true true) (clean_text x) = true.
Proof.
  intros Hk. unfold clean_text, DocumentProcessor.clean_text. cbv zeta.
  fold kept. pose proof (collapse_kept x Hk) as Hk1.
  rewrite removal_fixed by done. unfold strip. split; [|split].
  - by apply rstrip_kept, lstrip_kept, ssp_kept.
  - apply rstrip_no_lead, lstrip_no_lead.
  - apply rstrip_ok, lstrip_ok, ssp_ok, collapse_ok.
Qed.

Lemma clean_text_kept (x : text) : forallb kept (clean_text x) = true.
Proof.
  unfold clean_text, DocumentProcessor.clean_text. cbv zeta. fold kept.
  unfold strip. apply rstrip_kept, lstrip_kept, ssp_kept, removal_kept.
Qed.

(** C5, as the code has it: on a text that holds no character for the second
    substitution to remove, cleaning twice is cleaning once; on any text, a
    third cleaning changes nothing. *)
Theorem clean_text_idempotent_on_kept (x : text) :
  (forallb kept x = true -> clean_text (clean_text x) = clean_text x) /\
  clean_text (clean_text (clean_text x)) = clean_text (clean_text x).
Proof.
  assert (Hidem : forall y, forallb kept y = true ->
                            clean_text (clean_text y) = clean_text y).
  { intros y Hy. destruct (clean_text_shape y Hy) as (Hk & Hl & Hs).
    by apply clean_text_fixed. }
  split; [apply Hidem|]. apply Hidem, clean_text_kept.
Qed.

End CleanFacts.

Lemma clean_text_idempotent_on_kept_witness :
  clean_text (fun _ => false)
    (clean_text (fun _ => false) (lit "  Hello ,   world  !  "))
  = clean_text (fun _ => false) (lit "  Hello ,   world  !  ").
Proof.
  apply (proj1 (clean_text_idempotent_on_kept (fun _ => false)
                  (lit "  Hello ,   world  !  "))).
  vm_compute. reflexivity.
Defined.

(** C5 as stated fails: the character removed between two spaces leaves
    both of them, and the second cleaning merges them. *)
Lemma clean_text_not_idempotent :
  clean_text (fun _ => false) (lit "a # b") = lit "a  b" /\
  clean_text (fun _ => false) (clean_text (fun _ => false) (lit "a # b"))
  = lit "a b".
Proof. split; vm_compute; reflexivity. Qed.

(** ** Searching a text *)

Lemma rfind_from_none (p s : text) (i : nat) :
  contains p s = false -> rfind_from p s i = None.
Proof.
  revert i. induction s as [|c s IH]; intros i; cbn [contains rfind_from].
  - by intros ->.
  - intros H. apply orb_false_iff in H as [Hhere Hlater].
    by rewrite (IH _ Hlater), Hhere.
Qed.

Lemma rfind_from_here (p : text) (c : N) (s : text) (i : nat) :
  starts_with p (c :: s) = true -> contains p s = false ->
  rfind_from p (c :: s) i = Some i.
Proof.
  intros Hhere Hlater. cbn [rfind_from].
  by rewrite (rfind_from_none _ _ _ Hlater), Hhere.
Qed.

Lemma rfind_from_app (p a t : text) (i j : nat) :
  rfind_from p t (i + length a) = Some j -> rfind_from p (a ++ t) i = Some j.
Proof.
  revert i. induction a as [|c a IH]; intros i H.
  - by rewrite Nat.add_0_r in H.
  - change ((c :: a) ++ t) with (c :: a ++ t).
    cbn [rfind_from length] in *. rewrite (IH (S i)); [done|].
    by replace (S i + length a)%nat with (i + S (length a))%nat by lia.
Qed.

(** An occurrence cannot begin in a part that lacks the first character of
    the pattern. *)
Lemma contains_app_no_head (h : N) (p a b : text) :
  Forall (fun c => c <> h) a ->
  contains (h :: p) (a ++ b) = contains (h :: p) b.
Proof.
  induction 1 as [|c a Hc _ IH]; [done|].
  change ((c :: a) ++ b) with (c :: a ++ b). cbn [contains starts_with].
  rewrite IH. by rewrite (proj2 (N.eqb_neq h c)) by done.
Qed.

Lemma starts_with_app_break (p a : text) (c : N) (b : text) :
  Forall (fun x => x <> c) p ->
  starts_with p (a ++ c :: b) = true -> starts_with p a = true.
Proof.
  revert a. induction p as [|x p IH]; intros a Hp H; [done|].
  inversion Hp as [|? ? Hx Hp']; subst.
  destruct a as [|y a].
  - change ([] ++ c :: b) with (c :: b) in H. cbn [starts_with] in H.
    apply andb_true_iff in H as [H _]. by apply N.eqb_eq in H.
  - change ((y :: a) ++ c :: b) with (y :: a ++ c :: b) in H.
    cbn [starts_with] in *. apply andb_true_iff in H as [-> H].
    by rewrite (IH a Hp' H).
Qed.

(** An occurrence cannot run over a character the pattern lacks. *)
Lemma contains_app_break (p a : text) (c : N) (b : text) :
  p <> [] -> Forall (fun x => x <> c) p ->
  contains p a = false -> contains p (c :: b) = false ->
  contains p (a ++ c :: b) = false.
Proof.
  intros Hne Hp. induction a as [|y a IH]; intros Ha Hb; [done|].
  cbn [contains] in Ha. apply orb_false_iff in Ha as [Hhere Hlater].
  change ((y :: a) ++ c :: b) with (y :: a ++ c :: b). cbn [contains].
  rewrite (IH Hlater Hb), orb_false_r.
  destruct (starts_with p (y :: a ++ c :: b)) eqn:Hs; [|done].
  change (y :: a ++ c :: b) with ((y :: a) ++ c :: b) in Hs.
  apply starts_with_app_break in Hs; [congruence|done].
Qed.

(** ** The prompt on the wire *)

Definition label : text := lit "Question:".

Lemma label_after_question (query : text) :
  contains label query = false ->
  contains label (lit "uestion: " ++ query ++ instructions) = false.
Proof.
  intros Hq. unfold label. change (lit "Question:") with (81%N :: lit "uestion:").
  rewrite contains_app_no_head
    by (repeat constructor; compute; discriminate).
  change instructions with (10%N :: tl instructions).
  apply contains_app_break.
  - discriminate.
  - repeat constructor; compute; discriminate.
  - exact Hq.
  - vm_compute. reflexivity.
Qed.

Section PromptFacts.

Context {float : Type}.
Variable fmt_2f : float -> text.

Lemma prompt_head_nonempty (contexts : list (context float))
    (history : list turn) :
  (0 < length (prompt_head float fmt_2f contexts history))%nat.
Proof. unfold prompt_head, preamble. rewrite !length_app. cbn. lia. Qed.

Lemma rfind_label (contexts : list (context float)) (history : list turn)
    (query : text) :
  contains label query = false ->
  rfind label (build_prompt float fmt_2f contexts history query)
  = len (prompt_head float fmt_2f contexts history).
Proof.
  intros Hq. unfold rfind, build_prompt.
  erewrite rfind_from_app; [reflexivity|].
  change (lit "Question: " ++ ?r) with (81%N :: lit "uestion: " ++ r).
  apply rfind_from_here; [reflexivity|]. by apply label_after_question.
Qed.

(** C2, as the code has it: when the assembled prompt is over the limit and
    the question does not itself hold the text of the label, the prompt sent
    keeps everything from the label of the question on (the question and the
    instructions) word for word; of what stands before it (preamble, context
    block, history block and the word before the label) it keeps a leading
    part and removes the rest from its end, with the marker in between.  The
    budget is 2500 less the kept tail less 100: a budget of zero or more
    keeps that many characters, and more than 100 characters are removed; a
    negative budget removes that many characters from the end.  So the
    history block, which stands last but for the five characters of the word
    before the label, is cut before any of the context is, and it is kept
    whole exactly when the budget is between -5 and -1. *)
Theorem truncation_cuts_before_the_label (contexts : list (context float))
    (history : list turn) (query : text) :
  contains label query = false ->
  len (build_prompt float fmt_2f contexts history query) > max_length ->
  let question_part := lit "Question: " ++ query ++ instructions in
  let head := prompt_head float fmt_2f contexts history in
  let budget := max_length - len question_part - 100 in
  let kept := slice_to head budget in
  truncate_prompt (build_prompt float fmt_2f contexts history query)
  = kept ++ truncation_marker ++ question_part /\
  (exists removed,
     head = kept ++ removed /\
     len removed
     = (if budget <? 0 then Z.min (- budget) (len head)
        else len head - budget) /\
     (0 <= budget -> 100 < len removed)) /\
  ((exists rest,
      kept = preamble ++ context_text float fmt_2f contexts ++ nl ++ nl
             ++ history_block history ++ rest)
   <-> -5 <= budget < 0).
Proof.
  intros Hq Hlong question_part head budget kept.
  assert (Hsum : len (build_prompt float fmt_2f contexts history query)
                 = len head + len question_part).
  { unfold build_prompt, len. fold head question_part.
    rewrite length_app. lia. }
  assert (Hklen : len kept
                  = if budget <? 0 then Z.max 0 (len head + budget)
                    else budget).
  { unfold kept, slice_to, len. destruct (budget <? 0) eqn:Hb;
      rewrite length_take.
    - apply Z.ltb_lt in Hb. lia.
    - apply Z.ltb_ge in Hb. unfold len in *. lia. }
  assert (Hprefix : head = kept ++ drop (length kept) head).
  { assert (Htake : forall n,
              head = take n head ++ drop (length (take n head)) head).
    { intros n. rewrite length_take.
      destruct (Nat.le_gt_cases n (length head)).
      - rewrite Nat.min_l by done. by rewrite take_drop.
      - rewrite Nat.min_r by lia. rewrite drop_all, take_ge by lia.
        by rewrite app_nil_r. }
    unfold kept, slice_to. destruct (budget <? 0); apply Htake. }
  split; [|split].
  - unfold truncate_prompt.
    rewrite (proj2 (Z.gtb_gt _ _) Hlong). fold label.
    rewrite (rfind_label _ _ _ Hq).
    pose proof (prompt_head_nonempty contexts history) as Hhead.
    rewrite (proj2 (Z.gtb_gt _ _)) by (unfold len; lia).
    unfold build_prompt. fold question_part head.
    assert (Hto : slice_to (head ++ question_part) (len head) = head).
    { unfold slice_to, len. rewrite (proj2 (Z.ltb_ge _ _)) by lia.
      rewrite Nat2Z.id. by rewrite take_app_length. }
    assert (Hfrom : slice_from (head ++ question_part) (len head)
                    = question_part).
    { unfold slice_from, len. rewrite Nat2Z.id. by rewrite drop_app_length. }
    by rewrite Hto, Hfrom.
  - exists (drop (length kept) head). split; [exact Hprefix|].
    assert (Hrem : len (drop (length kept) head) = len head - len kept).
    { unfold len. rewrite length_drop.
      pose proof (f_equal length Hprefix) as Hl. rewrite length_app in Hl.
      lia. }
    rewrite Hrem, Hklen. destruct (budget <? 0) eqn:Hb.
    + apply Z.ltb_lt in Hb. split; [unfold len; lia|lia].
    + split; [reflexivity|]. lia.
  - pose proof (prompt_head_nonempty contexts history) as Hhead.
    set (base := preamble ++ context_text float fmt_2f contexts ++ nl ++ nl
                 ++ history_block history).
    assert (Hbase : forall x,
              preamble ++ context_text float fmt_2f contexts ++ nl ++ nl
              ++ history_block history ++ x = base ++ x).
    { intros x. unfold base. by rewrite <- !app_assoc. }
    assert (Hhd : head = base ++ lit "User ").
    { unfold head, prompt_head. apply Hbase. }
    assert (Hpre : (0 < length base)%nat).
    { unfold base, preamble. rewrite !length_app. cbn. lia. }
    assert (Hlen : len head = len base + 5).
    { rewrite Hhd. unfold len. rewrite length_app. cbn. lia. }
    split.
    + intros [rest Hrest]. rewrite Hbase in Hrest.
      assert (Hge : len base <= len kept).
      { rewrite Hrest. unfold len. rewrite length_app. lia. }
      rewrite Hklen in Hge. destruct (budget <? 0) eqn:Hb.
      * apply Z.ltb_lt in Hb. unfold len in *. lia.
      * apply Z.ltb_ge in Hb. unfold len in *. lia.
    + intros [Hlo Hhi].
      exists (take (Z.to_nat (5 + budget)) (lit "User ")).
      rewrite Hbase.
      assert (Hk : kept = take (length base + Z.to_nat (5 + budget))
                            (base ++ lit "User ")).
      { unfold kept, slice_to. rewrite (proj2 (Z.ltb_lt _ _) Hhi), <- Hhd.
        f_equal. unfold len in *. lia. }
      rewrite Hk. apply take_app_add.
Qed.

End PromptFacts.

(** A context of three thousand characters, one earlier exchange, and two
    questions, the first of which quotes the label. *)
Definition long_context : list (context unit) :=
  [{| ctx_text := replicate 3000 120%N; ctx_source := lit "a.pdf";
      ctx_score := tt; ctx_chunk_id := 0 |}].

Definition two_decimals (_ : unit) : text := lit "0.90".

Definition earlier_exchange : list turn :=
  [{| turn_role := User; content := Str (lit "What is in the report?");
      timestamp := lit "t0" |};
   {| turn_role := Assistant; content := Str (lit "A summary of sales.");
      timestamp := lit "t1" |}].

Definition quoting_query : text :=
  lit "Summarise the section headed Question: 7".

Definition plain_query : text := lit "And the totals?".

Lemma truncation_cuts_before_the_label_witness :
  truncate_prompt
    (build_prompt unit two_decimals long_context earlier_exchange plain_query)
  = slice_to (prompt_head unit two_decimals long_context earlier_exchange)
             (max_length
              - len (lit "Question: " ++ plain_query ++ instructions) - 100)
    ++ truncation_marker ++ lit "Question: " ++ plain_query ++ instructions.
Proof.
  pose proof (truncation_cuts_before_the_label two_decimals long_context
                earlier_exchange plain_query) as H.
  cbv zeta in H. destruct H as (H & _).
  - vm_compute. reflexivity.
  - vm_compute. reflexivity.
  - exact H.
Defined.

(** C2 as stated fails: the history block of the assembled prompt is not in
    the prompt sent, and what is kept of the context is its beginning. *)
Lemma history_block_is_cut :
  let prompt :=
    build_prompt unit two_decimals long_context earlier_exchange plain_query in
  (len prompt >? max_length) = true /\
  contains (history_text earlier_exchange) prompt = true /\
  contains (history_text earlier_exchange) (truncate_prompt prompt) = false /\
  contains plain_query (truncate_prompt prompt) = true.
Proof. vm_compute. repeat split; reflexivity. Qed.

(** C1, at a question that quotes the label: the search for the label stops
    inside the question, and the prompt posted to the endpoint has lost the
    beginning of the question. *)
Theorem quoting_question_is_cut :
  let prompt :=
    build_prompt unit two_decimals long_context [] quoting_query in
  let out :=
    get_response unit two_decimals (fun _ => Ok long_context)
      (Some (lit "key")) (fun _ => Ok (Str (lit "fine"))) quoting_query [] in
  (len prompt >? max_length) = true /\
  contains quoting_query prompt = true /\
  out.2 = [truncate_prompt prompt] /\
  contains quoting_query (truncate_prompt prompt) = false /\
  ends_with (truncation_marker ++ lit "Question: 7" ++ instructions)
    (truncate_prompt prompt) = true.
Proof. vm_compute. repeat split; reflexivity. Qed.

(** ** The ingestion task *)

(** A chain [lo <= a1 <= ... <= an <= hi]. *)
Fixpoint climbs (lo : Z) (l : list Z) (hi : Z) : Prop :=
  match l with
  | [] => lo <= hi
  | a :: t => lo <= a /\ climbs a t hi
  end.

Lemma climbs_app (lo mid hi : Z) (l1 l2 : list Z) :
  climbs lo l1 mid -> climbs mid l2 hi -> climbs lo (l1 ++ l2) hi.
Proof.
  revert lo. induction l1 as [|a l1 IH]; intros lo H1 H2; cbn in *.
  - destruct l2 as [|b l2]; cbn in *; [lia|]. split; [lia|tauto].
  - split; [tauto|]. apply IH; tauto.
Qed.

Lemma climbs_bounds (lo hi : Z) (l : list Z) :
  climbs lo l hi -> lo <= hi /\ Forall (fun a => lo <= a) l.
Proof.
  revert lo. induction l as [|a l IH]; intros lo H; cbn in H.
  - split; [lia|constructor].
  - destruct H as [Ha H]. destruct (IH _ H) as [Hhi Hall]. split; [lia|].
    constructor; [lia|]. eapply Forall_impl; [exact Hall|]. cbn. lia.
Qed.

Lemma climbs_sorted (lo hi : Z) (l : list Z) :
  climbs lo l hi -> StronglySorted Z.le (lo :: l).
Proof.
  revert lo. induction l as [|a l IH]; intros lo H.
  - repeat constructor.
  - pose proof (climbs_bounds _ _ _ H) as [_ Hall]. cbn in H.
    constructor; [apply IH; tauto|exact Hall].
Qed.

(** What the float computation of the progress is relied on for: it starts at
    zero or above, does not go down from one file to the next, and stays
    within the first half of the scale. *)
Definition scale_ok (h : nat -> nat -> Z) : Prop :=
  (forall n, (0 < n)%nat -> 0 <= h 0%nat n) /\
  (forall n i, (S i < n)%nat -> h i n <= h (S i) n) /\
  (forall n i, (i < n)%nat -> h i n <= 50).

Section TaskFacts.

Context {float : Type}.
Variable unicode_word : N -> bool.
Variable pdf_pages : text -> result (list text).
Variable encode : text -> list float.
Variable encode_error : list text -> option text.
Variable upsert_error : list (vector_record float) -> option text.
Variable half_scale : nat -> nat -> Z.
Variable job_id : text.

Hypothesis half_scale_ok : scale_ok half_scale.

Let parse (f : file_info) : result (list chunk) :=
  process_pdf unicode_word doc_processor pdf_pages (path f) (filename f).
Let store := store_embeddings float encode encode_error upsert_error.

(** The status and the progress the status endpoint shows for the job. *)
Definition status_at (s : app float) : option job_state :=
  status <$> job_status float s !! job_id.

Definition progress_at (s : app float) : Z :=
  match job_status float s !! job_id with
  | Some j => progress j
  | None => 0
  end.

Lemma job_set_job (f : job -> job) (s : app float) :
  job_status float (set_job float job_id f s) !! job_id
  = f <$> job_status float s !! job_id.
Proof. unfold set_job. cbn [job_status with_job_status]. apply lookup_alter_eq. Qed.

(** The job is being processed in [s] with progress [p]; index and metadata
    directory are those of [s0]. *)
Definition processing (s0 s : app float) (p : Z) : Prop :=
  index float s = index float s0 /\
  processed float s = processed float s0 /\
  exists j, job_status float s !! job_id = Some j /\
            status j = Processing /\ progress j = p.

Lemma processing_set (s0 s : app float) (p : Z) (f : job -> job) (q : Z) :
  processing s0 s p ->
  (forall j, status (f j) = status j) ->
  (forall j, progress j = p -> progress (f j) = q) ->
  processing s0 (set_job float job_id f s) q.
Proof.
  intros (Hi & Hp & j & Hj & Hs & Hpr) Hfs Hfp. split; [done|]. split; [done|].
  exists (f j). rewrite job_set_job, Hj. split; [done|].
  split; [by rewrite Hfs|by apply Hfp].
Qed.

Lemma processing_status (s0 s : app float) (p : Z) :
  processing s0 s p -> status_at s = Some Processing.
Proof. intros (_ & _ & j & Hj & Hs & _). unfold status_at. by rewrite Hj, <- Hs. Qed.

Lemma processing_progress (s0 s : app float) (p : Z) :
  processing s0 s p -> progress_at s = p.
Proof. intros (_ & _ & j & Hj & _ & Hp). unfold progress_at. by rewrite Hj. Qed.

Lemma processing_from (s0 s1 s : app float) (p q : Z) :
  processing s0 s1 p -> processing s1 s q -> processing s0 s q.
Proof.
  intros (Hi & Hp & _) (Hi' & Hp' & Hj). split; [congruence|].
  split; [congruence|done].
Qed.

(** The loop over the files: every state it goes through has the job in
    processing, the progress only climbs and stays within 50, and the loop
    ends with the chunks of all files or at the first file that raises. *)
Lemma chunk_files_run (n : nat) (fs : list file_info) :
  forall (idx : nat) (st : app float) (acc : list chunk) (p : Z),
  processing st st p -> (idx + length fs = n)%nat -> p <= 50 ->
  (fs <> [] -> p <= half_scale idx n) ->
  exists p',
    processing st (chunk_files float unicode_word pdf_pages half_scale
                     job_id n idx fs st acc).1.2 p' /\
    p' <= 50 /\
    climbs p (map progress_at
                (chunk_files float unicode_word pdf_pages half_scale
                   job_id n idx fs st acc).2) p' /\
    Forall (fun s => exists q, processing st s q)
      (chunk_files float unicode_word pdf_pages half_scale
         job_id n idx fs st acc).2 /\
    match (chunk_files float unicode_word pdf_pages half_scale
             job_id n idx fs st acc).1.1 with
    | Ok chunks =>
        exists chunkss,
          Forall2 (fun f cs => parse f = Ok cs) fs chunkss /\
          chunks = acc ++ concat chunkss
    | Raise e =>
        exists pre f post,
          fs = pre ++ f :: post /\
          Forall (fun g => exists cs, parse g = Ok cs) pre /\
          parse f = Raise e
    end.
Proof.
  destruct half_scale_ok as (Hlo & Hmono & Hhi).
  induction fs as [|file rest IH]; intros idx st acc p Hst Hn Hp Hnext.
  - cbn. exists p. split; [done|]. split; [done|]. split; [lia|].
    split; [constructor|]. exists []. split; [constructor|].
    by rewrite app_nil_r.
  - cbn [chunk_files length] in *.
    set (h := half_scale idx n).
    set (st1 := set_job float job_id (set_progress h) st).
    set (st2 := set_job float job_id
                  (set_message (lit "Processing " ++ filename file)) st1).
    assert (Hph : p <= h) by (by apply Hnext).
    assert (Hh50 : h <= 50) by (apply Hhi; lia).
    assert (H1 : processing st st1 h) by (by eapply processing_set).
    assert (H2 : processing st st2 h) by (by eapply processing_set).
    fold (parse file). destruct (parse file) as [chunks|e] eqn:Hparse.
    + set (st3 := set_job float job_id (set_files_processed (idx + 1)) st2).
      assert (H3 : processing st st3 h) by (by eapply processing_set).
      assert (H3' : processing st3 st3 h).
      { destruct H3 as (_ & _ & Hj). by split. }
      destruct (IH (S idx) st3 (acc ++ chunks) h H3' ltac:(lia) Hh50)
        as (p' & Hend & Hp' & Hclimb & Hall & Hres).
      { intros Hrest. apply Hmono. destruct rest; [done|]. cbn in Hn. lia. }
      destruct (chunk_files float unicode_word pdf_pages half_scale job_id n
                  (S idx) rest st3 (acc ++ chunks)) as [[r st'] tr].
      cbn [fst snd] in *. exists p'. split; [exact (processing_from _ _ _ _ _ H3 Hend)|].
      split; [done|]. split.
      * cbn [map climbs].
        rewrite (processing_progress _ _ _ H1), (processing_progress _ _ _ H2),
          (processing_progress _ _ _ H3). repeat split; try lia. exact Hclimb.
      * split.
        { repeat (constructor; [by eexists|]).
          eapply Forall_impl; [exact Hall|]. cbn. intros s [q Hq].
          exists q. exact (processing_from _ _ _ _ _ H3 Hq). }
        destruct r as [all|e].
        { destruct Hres as (chunkss & Hok & ->). exists (chunks :: chunkss).
          split; [by constructor|]. cbn [concat]. by rewrite app_assoc. }
        { destruct Hres as (pre & f & post & -> & Hpre & Hf).
          exists (file :: pre), f, post. split; [done|].
          split; [|done]. constructor; [by eexists|done]. }
    + cbn [fst snd]. exists h. split; [done|]. split; [done|]. split.
      * cbn [map climbs].
        rewrite (processing_progress _ _ _ H1), (processing_progress _ _ _ H2).
        lia.
      * split; [repeat (constructor; [by eexists|]); constructor|].
        exists [], file, rest. split; [done|]. split; [constructor|done].
Qed.

Lemma parse_all_ok (fs : list file_info) (css : list (list chunk))
    (pre post : list file_info) (f : file_info) (e : text) :
  Forall2 (fun f cs => parse f = Ok cs) fs css ->
  fs = pre ++ f :: post -> parse f = Raise e -> False.
Proof.
  intros Hall -> Hf. apply Forall2_app_inv_l in Hall as (c1 & c2 & _ & H2 & _).
  inversion H2; subst. congruence.
Qed.

Lemma parse_elem_ok (fs : list file_info) (css : list (list chunk))
    (f : file_info) (e : text) :
  Forall2 (fun f cs => parse f = Ok cs) fs css ->
  f ∈ fs -> parse f = Raise e -> False.
Proof.
  intros Hall Hin Hf. apply list_elem_of_split in Hin as (pre & post & ->).
  by eapply parse_all_ok.
Qed.

Lemma parse_functional (fs : list file_info) (a b : list (list chunk)) :
  Forall2 (fun f cs => parse f = Ok cs) fs a ->
  Forall2 (fun f cs => parse f = Ok cs) fs b -> a = b.
Proof.
  intros Ha. revert b. induction Ha as [|f cs fs a Hf _ IH]; intros b Hb.
  - by inversion Hb.
  - inversion Hb as [|? cs' ? b' Hf' Hb']; subst. f_equal; [congruence|].
    by apply IH.
Qed.

Variable now : text.
Variable file_paths : list file_info.
Variable st : app float.
Variable j0 : job.

Hypothesis job_created : job_status float st !! job_id = Some j0.
Hypothesis job_pending : status j0 = Pending.
Hypothesis job_at_zero : progress j0 = 0.

Let run : list (app float) :=
  process_documents_task float unicode_word pdf_pages encode encode_error
    upsert_error half_scale now job_id file_paths st.

(** The metadata record of the job, for the given chunks. *)
Definition metadata_of (chunkss : list (list chunk)) : job_metadata :=
  {| md_job_id := job_id; md_files := file_paths;
     md_chunks_count := length (concat chunkss); md_processed_at := now |}.

(** The states at the end of a run that failed with [e]. *)
Definition failed_with (e : text) (post : list (app float)) : Prop :=
  post <> [] /\
  Forall (fun s => status_at s = Some Failed) post /\
  forall s, last post = Some s ->
    exists j, job_status float s !! job_id = Some j /\
              status j = Failed /\ message j = lit "Error: " ++ e.

(** The states at the end of a run that completed. *)
Definition completed_with (chunkss : list (list chunk))
    (ix : list (vector_record float)) (post : list (app float)) : Prop :=
  post <> [] /\
  Forall (fun s => status_at s = Some Completed /\
                   index float s = ix /\
                   processed float s !! metadata_path job_id
                   = Some (metadata_of chunkss)) post.

Lemma status_at_job (s : app float) (j : job) :
  job_status float s !! job_id = Some j -> status_at s = Some (status j).
Proof. intros Hj. unfold status_at. by rewrite Hj. Qed.

Lemma progress_at_job (s : app float) (j : job) :
  job_status float s !! job_id = Some j -> progress_at s = progress j.
Proof. intros Hj. unfold progress_at. by rewrite Hj. Qed.

Lemma job_at_set (f : job -> job) (s : app float) (j : job) :
  job_status float s !! job_id = Some j ->
  job_status float (set_job float job_id f s) !! job_id = Some (f j).
Proof. intros Hj. by rewrite job_set_job, Hj. Qed.

Lemma fail_job_failed (e : text) (s : app float) (j : job) :
  job_status float s !! job_id = Some j ->
  failed_with e (fail_job float job_id e s) /\
  map progress_at (fail_job float job_id e s) = [progress j; progress j].
Proof.
  intros Hj. unfold fail_job, failed_with.
  split; [split; [done|split]|].
  - repeat constructor; unfold status_at; rewrite !job_set_job, Hj; done.
  - intros s' [= <-]. eexists. rewrite !job_set_job, Hj. cbn. done.
  - cbn [map]. unfold progress_at. rewrite !job_set_job, Hj. done.
Qed.

(** The run is a stretch of processing states followed by the states of one
    of three endings. *)
Lemma task_cases :
  exists pre post,
    run = pre ++ post /\ pre <> [] /\
    Forall (fun s => status_at s = Some Processing) pre /\
    climbs 0 (map progress_at run) 100 /\
    ((exists before f after e,
        file_paths = before ++ f :: after /\
        Forall (fun g => exists cs, parse g = Ok cs) before /\
        parse f = Raise e /\ failed_with e post)
     \/ (exists chunkss e ix,
          Forall2 (fun f cs => parse f = Ok cs) file_paths chunkss /\
          store (concat chunkss) job_id (index float st) = (Raise e, ix) /\
          failed_with e post)
     \/ (exists chunkss ix,
          Forall2 (fun f cs => parse f = Ok cs) file_paths chunkss /\
          store (concat chunkss) job_id (index float st) = (Ok tt, ix) /\
          completed_with chunkss ix post)).
Proof.
  destruct half_scale_ok as (Hlo & _ & _).
  unfold run, process_documents_task.
  rewrite bool_decide_eq_false_2 by (rewrite job_created; discriminate).
  set (st1 := set_job float job_id (set_status Processing) st).
  set (st2 := set_job float job_id
                (set_message (lit "Extracting text from PDFs")) st1).
  assert (H1 : processing st st1 0).
  { split; [done|]. split; [done|]. eexists.
    unfold st1. rewrite job_set_job, job_created. cbn. done. }
  assert (H2 : processing st st2 0) by (by eapply processing_set).
  assert (H2' : processing st2 st2 0).
  { destruct H2 as (_ & _ & Hj). by split. }
  destruct (chunk_files_run (length file_paths) file_paths 0 st2 [] 0 H2'
              ltac:(lia) ltac:(lia))
    as (p' & Hend & Hp' & Hclimb & Hall & Hres).
  { intros Hne. apply Hlo. destruct file_paths; [done|cbn; lia]. }
  destruct (chunk_files float unicode_word pdf_pages half_scale job_id
              (length file_paths) 0 file_paths st2 []) as [[r st3] tr].
  cbn [fst snd] in *.
  assert (H3 : processing st st3 p')
    by exact (processing_from _ _ _ _ _ H2 Hend).
  assert (Hpre : Forall (fun s => status_at s = Some Processing)
                   ([st1; st2] ++ tr)).
  { apply Forall_app. split.
    - repeat constructor; by eapply processing_status.
    - eapply Forall_impl; [exact Hall|]. cbn. intros s [q Hq].
      by eapply processing_status. }
  assert (Hc12 : climbs 0 (map progress_at ([st1; st2] ++ tr)) p').
  { rewrite map_app. apply (climbs_app _ 0).
    - cbn. rewrite (processing_progress _ _ _ H1),
        (processing_progress _ _ _ H2). lia.
    - exact Hclimb. }
  destruct r as [all_chunks|e].
  - destruct Hres as (chunkss & Hok & Hchunks).
    change ([] ++ concat chunkss) with (concat chunkss) in Hchunks.
    subst all_chunks.
    set (st4 := set_job float job_id (set_progress 60) st3).
    set (st5 := set_job float job_id
                  (set_message (lit "Generating embeddings")) st4).
    assert (H4 : processing st st4 60) by (by eapply processing_set).
    assert (H5 : processing st st5 60) by (by eapply processing_set).
    assert (Hix5 : index float st5 = index float st) by apply H5.
    rewrite Hix5. fold store.
    pose proof (processing_progress _ _ _ H4) as Hp4.
    pose proof (processing_progress _ _ _ H5) as Hp5.
    pose proof (processing_status _ _ _ H4) as Hs4.
    pose proof (processing_status _ _ _ H5) as Hs5.
    destruct H5 as (_ & _ & j5 & Hj5 & Hsj5 & Hpj5).
    destruct (store (concat chunkss) job_id (index float st))
      as [[[]|e] ix] eqn:Hstore.
    + cbv zeta. set (st6 := with_index float ix st5).
      set (st7 := with_processed float _ st6).
      set (st8 := set_job float job_id (set_status Completed) st7).
      set (st9 := set_job float job_id (set_progress 100) st8).
      set (st10 := set_job float job_id
                     (set_message (lit "Processing completed successfully"))
                     st9).
      assert (Hj6 : job_status float st6 !! job_id = Some j5) by exact Hj5.
      assert (Hj7 : job_status float st7 !! job_id = Some j5) by exact Hj5.
      assert (Hj8 : job_status float st8 !! job_id
                    = Some (set_status Completed j5))
        by exact (job_at_set _ _ _ Hj7).
      assert (Hj9 : job_status float st9 !! job_id
                    = Some (set_progress 100 (set_status Completed j5)))
        by exact (job_at_set _ _ _ Hj8).
      assert (Hj10 : job_status float st10 !! job_id
                     = Some (set_message
                               (lit "Processing completed successfully")
                               (set_progress 100 (set_status Completed j5))))
        by exact (job_at_set _ _ _ Hj9).
      assert (Hmeta : processed float st7 !! metadata_path job_id
                      = Some (metadata_of chunkss))
        by apply lookup_insert_eq.
      assert (Hmeta8 : processed float st8 = processed float st7) by done.
      assert (Hmeta9 : processed float st9 = processed float st7) by done.
      assert (Hmeta10 : processed float st10 = processed float st7) by done.
      assert (Hix7 : index float st7 = ix) by done.
      assert (Hix8 : index float st8 = ix) by done.
      assert (Hix9 : index float st9 = ix) by done.
      assert (Hix10 : index float st10 = ix) by done.
      clearbody st6 st7 st8 st9 st10.
      exists (([st1; st2] ++ tr) ++ [st4; st5; st6; st7]), [st8; st9; st10].
      split; [rewrite <- !app_assoc; reflexivity|]. split; [done|]. split.
      { apply Forall_app. split; [exact Hpre|].
        repeat constructor; try done.
        - by rewrite (status_at_job _ _ Hj6), Hsj5.
        - by rewrite (status_at_job _ _ Hj7), Hsj5. }
      split.
      { rewrite (app_assoc [st1; st2] tr), map_app.
        apply (climbs_app _ p'); [exact Hc12|].
        cbn [map climbs]. rewrite Hp4, Hp5.
        rewrite (progress_at_job _ _ Hj6), (progress_at_job _ _ Hj7),
          (progress_at_job _ _ Hj8), (progress_at_job _ _ Hj9),
          (progress_at_job _ _ Hj10). cbn. rewrite Hpj5. lia. }
      right. right. exists chunkss, ix. split; [done|]. split; [done|].
      split; [done|].
      repeat constructor;
        rewrite ?(status_at_job _ _ Hj8), ?(status_at_job _ _ Hj9),
          ?(status_at_job _ _ Hj10), ?Hmeta8, ?Hmeta9, ?Hmeta10; done.
    + cbv zeta. set (st6 := with_index float ix st5).
      assert (Hj6 : job_status float st6 !! job_id = Some j5) by exact Hj5.
      clearbody st6.
      destruct (fail_job_failed e st6 j5 Hj6) as [Hfail Hprog].
      exists (([st1; st2] ++ tr) ++ [st4; st5; st6]),
             (fail_job float job_id e st6).
      split; [rewrite <- !app_assoc; reflexivity|]. split; [done|]. split.
      { apply Forall_app. split; [exact Hpre|].
        repeat constructor; try done.
        by rewrite (status_at_job _ _ Hj6), Hsj5. }
      split.
      { rewrite (app_assoc [st1; st2] tr), !map_app.
        apply (climbs_app _ p'); [exact Hc12|]. rewrite Hprog.
        cbn [map climbs]. rewrite Hp4, Hp5, (progress_at_job _ _ Hj6), Hpj5.
        change ([?a; ?b; ?c] ++ [?d; ?e]) with [a; b; c; d; e].
        cbn [climbs]. lia. }
      right. left. by exists chunkss, e, ix.
  - destruct Hres as (before & f & after & Hsplit & Hbefore & Hf).
    destruct H3 as (_ & _ & j3 & Hj3 & _ & Hpj3).
    destruct (fail_job_failed e st3 j3 Hj3) as [Hfail Hprog].
    exists ([st1; st2] ++ tr), (fail_job float job_id e st3).
    split; [rewrite <- !app_assoc; reflexivity|]. split; [done|].
    split; [exact Hpre|]. split.
    { rewrite (app_assoc [st1; st2] tr), map_app.
      apply (climbs_app _ p'); [exact Hc12|]. rewrite Hprog.
      cbn [climbs]. lia. }
    left. by exists before, f, after, e.
Qed.

Lemma store_ok_index (chunks : list chunk) (ix : list (vector_record float)) :
  store chunks job_id (index float st) = (Ok tt, ix) ->
  ix = index float st
       ++ build_vectors float chunks (map encode (map chunk_text chunks)) job_id.
Proof.
  intros Hstore.
  pose proof (store_embeddings_written encode encode_error upsert_error
                chunks job_id (index float st)) as [_ Hall].
  fold store in Hall. rewrite Hstore in Hall. by apply Hall.
Qed.

(** C9: a job created pending with progress 0 is taken by the task through
    processing states to one terminal status, completed or failed, and the
    progress shown never decreases on the way.  A state that shows completed
    comes only when every file was chunked, the records of all chunks are in
    the index and the metadata record of the job is written.  When the
    chunking of a file raises, or the embedding or the upsert of the chunks
    does, the run ends failed with the message of the error recorded. *)
Theorem ingestion_job_lifecycle :
  (status_at st = Some Pending /\
   exists pre post final,
     run = pre ++ post /\ pre <> [] /\ post <> [] /\
     (final = Completed \/ final = Failed) /\
     Forall (fun s => status_at s = Some Processing) pre /\
     Forall (fun s => status_at s = Some final) post) /\
  StronglySorted Z.le (progress_at st :: map progress_at run) /\
  (forall s, s ∈ run -> status_at s = Some Completed ->
     exists chunkss,
       Forall2 (fun f cs => parse f = Ok cs) file_paths chunkss /\
       index float s
       = index float st
         ++ build_vectors float (concat chunkss)
              (map encode (map chunk_text (concat chunkss))) job_id /\
       processed float s !! metadata_path job_id
       = Some (metadata_of chunkss)) /\
  (forall f e, f ∈ file_paths -> parse f = Raise e ->
     exists s j f' e',
       last run = Some s /\ job_status float s !! job_id = Some j /\
       status j = Failed /\
       f' ∈ file_paths /\ parse f' = Raise e' /\
       message j = lit "Error: " ++ e') /\
  (forall chunkss e ix,
     Forall2 (fun f cs => parse f = Ok cs) file_paths chunkss ->
     store (concat chunkss) job_id (index float st) = (Raise e, ix) ->
     exists s j,
       last run = Some s /\ job_status float s !! job_id = Some j /\
       status j = Failed /\ message j = lit "Error: " ++ e).
Proof.
  assert (Hlast : forall pre post : list (app float),
            post <> [] -> last (pre ++ post) = last post).
  { intros pre post Hne. rewrite last_app.
    destruct post as [|x post] using rev_ind; [done|]. by rewrite last_snoc. }
  destruct task_cases
    as (pre & post & Hrun & Hpre_ne & Hpre & Hclimb & Hend).
  assert (Hstart : status_at st = Some Pending)
    by (by rewrite (status_at_job _ _ job_created), job_pending).
  assert (Hsorted : StronglySorted Z.le (progress_at st :: map progress_at run)).
  { rewrite (progress_at_job _ _ job_created), job_at_zero.
    by eapply climbs_sorted. }
  assert (Hproc : forall s, s ∈ pre -> status_at s = Some Completed -> False).
  { intros s Hs Hc. rewrite Forall_forall in Hpre.
    rewrite (Hpre s Hs) in Hc. discriminate. }
  destruct Hend
    as [(before & f0 & after & e0 & Hsplit & Hbefore & Hf0 & Hfail)
       |[(chunkss0 & e0 & ix0 & Hok & Hstore & Hfail)
        |(chunkss0 & ix0 & Hok & Hstore & Hdone)]].
  - destruct Hfail as (Hpost_ne & Hpost & Hmsg).
    destruct post as [|x post'] eqn:Hpost_eq using rev_ind; [done|].
    clear IHpost'. destruct (Hmsg x (last_snoc _ _)) as (j & Hj & Hs & Hm).
    split; [split; [done|]|split; [done|split; [|split]]].
    + exists pre, (post' ++ [x]), Failed. repeat split; auto.
    + intros s Hs' Hc. rewrite Hrun in Hs'.
      apply elem_of_app in Hs' as [Hs'|Hs']; [by destruct (Hproc s)|].
      rewrite Forall_forall in Hpost. rewrite (Hpost s Hs') in Hc. discriminate.
    + intros f e Hf He. exists x, j, f0, e0. rewrite Hrun, Hlast by done.
      rewrite last_snoc. repeat split; try done. rewrite Hsplit.
      apply elem_of_app. right. by left.
    + intros chunkss e ix Hall _. exfalso. by eapply parse_all_ok.
  - destruct Hfail as (Hpost_ne & Hpost & Hmsg).
    destruct post as [|x post'] eqn:Hpost_eq using rev_ind; [done|].
    clear IHpost'. destruct (Hmsg x (last_snoc _ _)) as (j & Hj & Hs & Hm).
    split; [split; [done|]|split; [done|split; [|split]]].
    + exists pre, (post' ++ [x]), Failed. repeat split; auto.
    + intros s Hs' Hc. rewrite Hrun in Hs'.
      apply elem_of_app in Hs' as [Hs'|Hs']; [by destruct (Hproc s)|].
      rewrite Forall_forall in Hpost. rewrite (Hpost s Hs') in Hc. discriminate.
    + intros f e Hf He. exfalso. by eapply parse_elem_ok.
    + intros chunkss e ix Hall Hraise.
      rewrite (parse_functional _ _ _ Hall Hok), Hstore in Hraise.
      injection Hraise as <- <-. exists x, j. rewrite Hrun, Hlast by done.
      by rewrite last_snoc.
  - destruct Hdone as (Hpost_ne & Hpost).
    split; [split; [done|]|split; [done|split; [|split]]].
    + exists pre, post, Completed. repeat split; auto.
      eapply Forall_impl; [exact Hpost|]. cbn. tauto.
    + intros s Hs' Hc. rewrite Hrun in Hs'.
      apply elem_of_app in Hs' as [Hs'|Hs'].
      * by destruct (Hproc s).
      * rewrite Forall_forall in Hpost. destruct (Hpost s Hs') as (_ & Hix & Hmeta).
        exists chunkss0. split; [done|]. split; [|done].
        rewrite Hix. by apply store_ok_index.
    + intros f e Hf He. exfalso. by eapply parse_elem_ok.
    + intros chunkss e ix Hall Hraise.
      rewrite (parse_functional _ _ _ Hall Hok), Hstore in Hraise. discriminate.
Qed.

End TaskFacts.

(** The progress as exact integer arithmetic gives it. *)
Definition floor_scale (i n : nat) : Z := Z.of_nat i * 50 / Z.of_nat n.

Lemma floor_scale_ok : scale_ok floor_scale.
Proof.
  unfold scale_ok, floor_scale. repeat split.
  - intros n Hn. apply Z.div_pos; lia.
  - intros n i Hi. apply Z.div_le_mono; lia.
  - intros n i Hi. apply Z.div_le_upper_bound; lia.
Qed.

(** The state an accepted upload of one small PDF leaves, and the job it
    creates. *)
Definition uploaded : app unit :=
  (upload_files unit opens_all (lit "job-1") (fun _ => lit "t0")
     [pdf_named "a.pdf"] empty_app).2.

Definition uploaded_files : list file_info :=
  [{| filename := lit "a.pdf"; path := lit "uploads/job-1_a.pdf";
      file_size := 1; upload_time := lit "t0" |}].

Definition uploaded_job : job :=
  {| status := Pending; progress := 0;
     message := lit "Files uploaded, processing started";
     files_processed := 0; total_files := 1; files := uploaded_files |}.

Lemma ingestion_job_lifecycle_witness :
  StronglySorted Z.le
    (progress_at (lit "job-1") uploaded
     :: map (progress_at (lit "job-1"))
          (process_documents_task unit (fun _ => false)
             (fun _ => Ok [lit "Quarterly report. Sales rose."])
             (fun _ => []) (fun _ => None) (fun _ => None) floor_scale
             (lit "t1") (lit "job-1") uploaded_files uploaded)).
Proof.
  refine (proj1 (proj2
    (ingestion_job_lifecycle (fun _ => false)
       (fun _ => Ok [lit "Quarterly report. Sales rose."])
       (fun _ : text => @nil unit) (fun _ => None) (fun _ => None)
       floor_scale (lit "job-1") floor_scale_ok (lit "t1") uploaded_files
       uploaded uploaded_job _ _ _))).
  - vm_compute. reflexivity.
  - reflexivity.
  - reflexivity.
Defined.

(** * Further properties of the code *)

(** ** Chunk records and their statistics *)

Section ChunkRecordFacts.

Variable dp : processor.

Lemma lookup_imap_chunk (t source_file : text) (i : nat) :
  create_chunks dp t source_file !! i
  = (fun c => {| chunk_text := c;
                 metadata := {| source := source_file; chunk_id := i;
                                total_chunks := length (split_text dp t);
                                char_count := len c |} |})
    <$> split_text dp t !! i.
Proof. unfold create_chunks. by rewrite list_lookup_imap. Qed.

(** X1: the records [create_chunks] makes for a document number its chunks
    0, 1, 2, ... in the order of the splitter, and each carries the text, the
    source, the number of chunks of the document and the length of its text;
    so a chunk id is always below [total_chunks]. *)
Theorem create_chunks_numbering (t source_file : text) :
  let cs := create_chunks dp t source_file in
  map chunk_text cs = split_text dp t /\
  map (fun c => chunk_id (metadata c)) cs = seq 0 (length cs) /\
  Forall (fun c => source (metadata c) = source_file /\
                   total_chunks (metadata c) = length cs /\
                   (chunk_id (metadata c) < total_chunks (metadata c))%nat /\
                   char_count (metadata c) = len (chunk_text c)) cs.
Proof.
  intros cs.
  assert (Hlen : length cs = length (split_text dp t))
    by (unfold cs, create_chunks; by rewrite length_imap).
  split; [|split].
  - apply list_eq. intros i. rewrite lookup_map. unfold cs.
    rewrite lookup_imap_chunk. by destruct (split_text dp t !! i).
  - apply list_eq. intros i. rewrite lookup_map. unfold cs at 1.
    rewrite lookup_imap_chunk.
    destruct (split_text dp t !! i) as [c|] eqn:Hi; cbn.
    + apply lookup_lt_Some in Hi. symmetry. apply lookup_seq. lia.
    + apply lookup_ge_None in Hi. symmetry. apply lookup_ge_None.
      rewrite length_seq. lia.
  - apply Forall_lookup. intros i c Hc. unfold cs in Hc.
    rewrite lookup_imap_chunk in Hc.
    destruct (split_text dp t !! i) as [x|] eqn:Hi; [|done].
    injection Hc as <-. cbn. apply lookup_lt_Some in Hi. repeat split; lia.
Qed.

End ChunkRecordFacts.

Section StatisticsFacts.

Context {float : Type}.
Variable true_div : Z -> Z -> float.

Lemma foldl_add_from (a : Z) (l : list Z) : foldl Z.add a l = a + sum_of l.
Proof.
  unfold sum_of. revert a. induction l as [|x l IH]; intros a; cbn; [lia|].
  rewrite (IH (a + x)), (IH (0 + x)). lia.
Qed.

Lemma min_of_bounds (c : Z) (l : list Z) :
  min_of c l <= c /\ Forall (fun x => min_of c l <= x) l.
Proof.
  unfold min_of. revert c. induction l as [|x l IH]; intros c; cbn.
  - split; [lia|constructor].
  - destruct (IH (Z.min c x)) as [Hc Hall]. split; [lia|].
    constructor; [lia|exact Hall].
Qed.

Lemma max_of_bounds (c : Z) (l : list Z) :
  c <= max_of c l /\ Forall (fun x => x <= max_of c l) l.
Proof.
  unfold max_of. revert c. induction l as [|x l IH]; intros c; cbn.
  - split; [lia|constructor].
  - destruct (IH (Z.max c x)) as [Hc Hall]. split; [lia|].
    constructor; [lia|exact Hall].
Qed.

Lemma sum_of_between (lo hi : Z) (l : list Z) :
  Forall (fun x => lo <= x <= hi) l ->
  Z.of_nat (length l) * lo <= sum_of l <= Z.of_nat (length l) * hi.
Proof.
  induction 1 as [|x l Hx _ IH].
  - cbn. lia.
  - unfold sum_of in *. cbn [foldl length]. rewrite foldl_add_from.
    unfold sum_of. lia.
Qed.

(** X2: [get_chunk_statistics] gives the empty result exactly for the empty
    list.  Otherwise the count is the number of chunks, the total is the sum
    of the character counts, every count lies between the minimum and the
    maximum reported, and so does the exact average: count times minimum is
    at most the total, which is at most count times maximum. *)
Theorem chunk_statistics_bounds (chunks : list chunk) :
  match get_chunk_statistics float true_div chunks with
  | None => chunks = []
  | Some s =>
      let counts := map (fun c => char_count (metadata c)) chunks in
      chunks <> [] /\
      stat_total_chunks float s = length chunks /\
      total_characters float s = sum_of counts /\
      Forall (fun x => min_chunk_size float s <= x <= max_chunk_size float s)
        counts /\
      Z.of_nat (length chunks) * min_chunk_size float s
        <= total_characters float s
        <= Z.of_nat (length chunks) * max_chunk_size float s
  end.
Proof.
  unfold get_chunk_statistics.
  destruct chunks as [|c0 rest]; [done|]. cbn [map].
  set (c := char_count (metadata c0)).
  set (cs := map (fun c => char_count (metadata c)) rest).
  cbv zeta. cbn [stat_total_chunks total_characters min_chunk_size
                 max_chunk_size].
  destruct (min_of_bounds c cs) as [Hmin Hmins].
  destruct (max_of_bounds c cs) as [Hmax Hmaxs].
  assert (Hall : Forall (fun x => min_of c cs <= x <= max_of c cs) (c :: cs)).
  { constructor; [lia|]. rewrite Forall_forall in *. intros x Hx.
    split; [by apply Hmins|by apply Hmaxs]. }
  split; [done|]. split; [done|]. split; [done|]. split; [exact Hall|].
  pose proof (sum_of_between _ _ _ Hall) as Hsum.
  replace (length (c0 :: rest)) with (length (c :: cs)); [exact Hsum|].
  unfold cs. cbn. by rewrite length_map.
Qed.

End StatisticsFacts.

(** ** Batches of records *)

Section BatchFacts.

Context {float : Type}.
Variable encode : text -> list float.
Variable encode_error : list text -> option text.
Variable upsert_error : list (vector_record float) -> option text.

Lemma batches_length (vs : list (vector_record float)) :
  length (batches float vs) = ((length vs + 99) / 100)%nat.
Proof.
  unfold batches, range_step, batch_size. rewrite !length_map, length_seq.
  f_equal. lia.
Qed.

Lemma batches_lookup (vs : list (vector_record float)) (i : nat) :
  (i < length (batches float vs))%nat ->
  batches float vs !! i = Some (take 100 (drop (i * 100) vs)).
Proof.
  intros Hi. rewrite batches_length in Hi.
  unfold batches, range_step, batch_size. rewrite !lookup_map.
  replace (length vs + 100 - 1)%nat with (length vs + 99)%nat by lia.
  by rewrite lookup_seq_lt.
Qed.

Lemma batches_cover_in_order_aux (vs : list (vector_record float)) (i : nat)
    (b : list (vector_record float)) :
  batches float vs !! i = Some b ->
  b = take 100 (drop (i * 100) vs) /\
  (0 < length b <= 100)%nat /\
  ((S i < length (batches float vs))%nat -> length b = 100%nat).
Proof.
  intros Hb. pose proof (lookup_lt_Some _ _ _ Hb) as Hi.
  rewrite batches_lookup in Hb by done. injection Hb as <-.
  split; [done|]. rewrite length_take, length_drop.
  rewrite batches_length in *.
  pose proof (Nat.div_mod_eq (length vs + 99) 100).
  pose proof (Nat.mod_upper_bound (length vs + 99) 100). lia.
Qed.

(** X3: the batches handed to [upsert] are the records in their order, cut every
    hundred: none is empty, none holds more than a hundred records, all but
    the last hold exactly a hundred, and together they are the records, none
    dropped and none moved. *)
Theorem batches_cover_in_order (vs : list (vector_record float)) :
  concat (batches float vs) = vs /\
  length (batches float vs) = ((length vs + 99) / 100)%nat /\
  (forall i b, batches float vs !! i = Some b ->
     b = take 100 (drop (i * 100) vs) /\
     (0 < length b <= 100)%nat /\
     ((S i < length (batches float vs))%nat -> length b = 100%nat)).
Proof.
  split; [apply batches_concat|]. split; [apply batches_length|].
  apply batches_cover_in_order_aux.
Qed.

Lemma upsert_all_stops (pre : list (list (vector_record float)))
    (b : list (vector_record float)) (post : list (list (vector_record float)))
    (e : text) (index : list (vector_record float)) :
  Forall (fun x => upsert_error x = None) pre ->
  upsert_error b = Some e ->
  upsert_all float upsert_error (pre ++ b :: post) index
  = (Raise e, index ++ concat pre).
Proof.
  intros Hpre Hb. revert index.
  induction Hpre as [|x pre Hx _ IH]; intros index.
  - cbn. by rewrite Hb, app_nil_r.
  - change ((x :: pre) ++ b :: post) with (x :: pre ++ b :: post).
    cbn [upsert_all concat]. rewrite Hx, IH. by rewrite app_assoc.
Qed.

(** X4: when the embedding of the texts raises, [store_embeddings] writes
    nothing and raises the error wrapped twice.  When the upsert of a batch
    raises, the batches before it stay in the index, the failing batch and
    those after it are not written, and the error is raised wrapped once. *)
Theorem store_embeddings_failures (chunks : list chunk) (job_id : text)
    (index : list (vector_record float)) :
  let vs := build_vectors float chunks (map encode (map chunk_text chunks))
              job_id in
  let out := store_embeddings float encode encode_error upsert_error
               chunks job_id index in
  (forall e, encode_error (map chunk_text chunks) = Some e ->
     out = (Raise (lit "Error storing embeddings: "
                   ++ lit "Error generating embeddings: " ++ e), index)) /\
  (forall pre b post e,
     encode_error (map chunk_text chunks) = None ->
     batches float vs = pre ++ b :: post ->
     Forall (fun x => upsert_error x = None) pre ->
     upsert_error b = Some e ->
     out = (Raise (lit "Error storing embeddings: " ++ e),
            index ++ take (100 * length pre) vs)).
Proof.
  intros vs out. subst out. unfold store_embeddings, generate_embeddings.
  split.
  - intros e He. by rewrite He.
  - intros pre b post e Henc Hsplit Hpre Hb. rewrite Henc. fold vs.
    rewrite Hsplit, (upsert_all_stops pre b post e) by done.
    do 2 f_equal.
    assert (Hlen : Forall (fun x => length x = 100%nat) pre).
    { apply Forall_lookup. intros i x Hx.
      assert (Hi : batches float vs !! i = Some x)
        by (rewrite Hsplit; by apply lookup_app_l_Some).
      pose proof (lookup_lt_Some _ _ _ Hx) as Hlt.
      destruct (batches_cover_in_order_aux vs i x Hi) as (_ & _ & Hfull).
      apply Hfull. rewrite Hsplit, length_app. cbn. lia. }
    assert (Hcat : concat pre ++ concat (b :: post) = vs)
      by (rewrite <- concat_app, <- Hsplit; apply batches_concat).
    assert (Hsize : length (concat pre) = (100 * length pre)%nat).
    { clear -Hlen. induction Hlen as [|x pre Hx _ IH]; [done|].
      cbn [concat length]. rewrite length_app, Hx, IH. lia. }
    pose proof (take_app_length (concat pre) (concat (b :: post))) as Htake.
    rewrite Hcat, Hsize in Htake. by rewrite Htake.
Qed.

End BatchFacts.

(** ** The prompt and the sources *)

Lemma last_k_app_exact {A} (k : nat) (older recent : list A) :
  length recent = k -> last_k k (older ++ recent) = recent.
Proof.
  intros Hk. unfold last_k. rewrite length_app, Hk.
  replace (length older + k - k)%nat with (length older) by lia.
  apply drop_app_length.
Qed.

Lemma last_k_short {A} (k : nat) (l : list A) :
  (length l <= k)%nat -> last_k k l = l.
Proof.
  intros Hk. unfold last_k.
  by replace (length l - k)%nat with 0%nat by lia.
Qed.

Lemma rfind_from_range (p s : text) (i j : nat) :
  rfind_from p s i = Some j -> (i <= j <= i + length s)%nat.
Proof.
  revert i. induction s as [|c s IH]; intros i; cbn [rfind_from length].
  - destruct (starts_with p []); [|done]. intros [= <-]. lia.
  - destruct (rfind_from p s (S i)) as [k|] eqn:Hk.
    + intros [= <-]. apply IH in Hk. lia.
    + destruct (starts_with p (c :: s)); [|done]. intros [= <-]. lia.
Qed.

Lemma rfind_range (p s : text) : -1 <= rfind p s <= len s.
Proof.
  unfold rfind, len. destruct (rfind_from p s 0) as [j|] eqn:Hj; [|lia].
  apply rfind_from_range in Hj. lia.
Qed.

Lemma len_slice_to (s : text) (n : Z) :
  len (slice_to s n)
  = if n <? 0 then Z.max 0 (len s + n) else Z.min n (len s).
Proof.
  unfold slice_to, len. destruct (n <? 0) eqn:Hn; rewrite length_take.
  - apply Z.ltb_lt in Hn. lia.
  - apply Z.ltb_ge in Hn. lia.
Qed.

Lemma len_slice_from (s : text) (n : Z) :
  0 <= n <= len s -> len (slice_from s n) = len s - n.
Proof. unfold slice_from, len. rewrite length_drop. lia. Qed.

(** X5: a prompt within the limit goes on the wire as it is.  A longer one is
    sent with at most 2500 characters when it holds no label of the question
    after its first character, or when the part from the last label on has at
    most 2400 characters; when that part has more than 2481 characters the
    prompt sent is still over the limit. *)
Theorem truncate_prompt_length (prompt : text) :
  let q := rfind (lit "Question:") prompt in
  (len prompt <= max_length -> truncate_prompt prompt = prompt) /\
  (max_length < len prompt -> q <= 0 ->
     truncate_prompt prompt = take 2500 prompt /\
     len (truncate_prompt prompt) = max_length) /\
  (max_length < len prompt -> 0 < q -> len prompt - q <= 2400 ->
     len (truncate_prompt prompt) <= 2419) /\
  (max_length < len prompt -> 0 < q -> 2481 < len prompt - q ->
     max_length < len (truncate_prompt prompt)).
Proof.
  intros q. unfold truncate_prompt, max_length. fold q.
  pose proof (rfind_range (lit "Question:") prompt) as Hq. fold q in Hq.
  assert (Hmark : len truncation_marker = 19) by reflexivity.
  split; [|split; [|split]].
  - intros Hshort.
    destruct (len prompt >? 2500) eqn:H; [apply Z.gtb_gt in H; lia|done].
  - intros Hlong Hq0. rewrite (proj2 (Z.gtb_gt _ _)) by lia.
    destruct (q >? 0) eqn:Hpos; [apply Z.gtb_gt in Hpos; lia|].
    split; [reflexivity|]. rewrite len_slice_to. cbn. lia.
  - intros Hlong Hq0 Hpart. rewrite (proj2 (Z.gtb_gt _ _)) by lia.
    rewrite (proj2 (Z.gtb_gt _ _)) by lia.
    rewrite !len_app, Hmark, len_slice_to, len_slice_from by lia.
    rewrite len_slice_to.
    destruct (q <? 0) eqn:Hneg; [apply Z.ltb_lt in Hneg; lia|].
    destruct (2500 - (len prompt - q) - 100 <? 0) eqn:Hav;
      [apply Z.ltb_lt in Hav; lia|]. lia.
  - intros Hlong Hq0 Hpart. rewrite (proj2 (Z.gtb_gt _ _)) by lia.
    rewrite (proj2 (Z.gtb_gt _ _)) by lia.
    rewrite !len_app, Hmark, len_slice_from by lia.
    pose proof (len_nonneg (slice_to (slice_to prompt q)
                              (2500 - (len prompt - q) - 100))). lia.
Qed.

Section AnswerFacts.

Context {float : Type}.
Variable fmt_2f : float -> text.
Variable retrieve_context : text -> result (list (context float)).
Variable sarvam_api_key : option text.
Variable sarvam : text -> result answer.

(** X6: only the last four turns of the conversation reach the prompt: turns
    before them change nothing, and a conversation of at most four turns is
    rendered whole, one line for each turn, the content of a turn as [str]
    gives it. *)
Theorem prompt_uses_last_four_turns (contexts : list (context float))
    (older recent : list turn) (query : text) :
  length recent = 4%nat ->
  build_prompt float fmt_2f contexts (older ++ recent) query
  = build_prompt float fmt_2f contexts recent query /\
  history_text recent
  = join nl (map (fun msg => role_upper (turn_role msg) ++ lit ": "
                             ++ str_of (content msg)) recent).
Proof.
  intros Hfour.
  assert (Htext : forall h, last_k 4 h = recent ->
            history_text h
            = join nl (map (fun msg => role_upper (turn_role msg) ++ lit ": "
                                       ++ str_of (content msg)) recent)).
  { intros h Hh. unfold history_text. by rewrite Hh. }
  pose proof (Htext _ (last_k_app_exact 4 older recent Hfour)) as H1.
  pose proof (Htext recent (last_k_short 4 recent ltac:(lia))) as H2.
  split; [|exact H2].
  unfold build_prompt, prompt_head, history_block. by rewrite H1, H2.
Qed.

(** X7: the sources returned with an answer are those of the first three
    contexts, in their order: never more than three, each with the source
    and the score of its context and with the first 200 characters of its
    text followed by three dots, whether or not the text was longer. *)
Theorem sources_are_top_three (contexts : list (context float)) :
  length (sources_of float contexts) = Nat.min 3 (length contexts) /\
  (forall i s, sources_of float contexts !! i = Some s ->
     (i < 3)%nat /\
     exists c, contexts !! i = Some c /\
       src_source float s = ctx_source float c /\
       src_relevance_score float s = ctx_score float c /\
       src_excerpt float s = take 200 (ctx_text float c) ++ lit "..." /\
       len (src_excerpt float s) = Z.min 200 (len (ctx_text float c)) + 3).
Proof.
  unfold sources_of. split; [by rewrite length_map, length_take|].
  intros i s Hs. rewrite lookup_map in Hs.
  destruct (take 3 contexts !! i) as [c|] eqn:Hc; [|done].
  injection Hs as <-. pose proof (lookup_lt_Some _ _ _ Hc) as Hi.
  rewrite length_take in Hi. split; [lia|].
  rewrite lookup_take_lt in Hc by lia. exists c. cbn.
  repeat split; try done.
  unfold len. rewrite length_app, length_take. cbn. lia.
Qed.

(** X8: [get_response] posts at most one prompt, and none unless the index gave
    matches and a key is set; the prompt posted is the assembled prompt after
    truncation.  An answer other than the fixed one is the content the
    endpoint returned for that prompt, as it is, with the sources of the
    matches; whatever is raised on the way comes out with one prefix. *)
Theorem get_response_posts_once (query : text) (history : list turn) :
  let out :=
    get_response float fmt_2f retrieve_context sarvam_api_key sarvam
      query history in
  (out.2 = [] \/
   exists contexts key,
     retrieve_context query = Ok contexts /\ contexts <> [] /\
     sarvam_api_key = Some key /\ key <> [] /\
     out.2 = [truncate_prompt
                (build_prompt float fmt_2f contexts history query)]) /\
  match out.1 with
  | Ok (response, sources) =>
      (retrieve_context query = Ok [] /\
       response = Str insufficient_answer /\ sources = [] /\ out.2 = [])
      \/ (exists contexts sent,
            retrieve_context query = Ok contexts /\ contexts <> [] /\
            out.2 = [sent] /\ sarvam sent = Ok response /\
            sources = sources_of float contexts)
  | Raise e =>
      exists cause, e = lit "Error generating response: " ++ cause /\
        (retrieve_context query = Raise cause
         \/ (out.2 = [] /\
             cause = lit "SARVAM_API_KEY not found in environment variables")
         \/ (exists sent, out.2 = [sent] /\ sarvam sent = Raise cause))
  end.
Proof.
  intros out. subst out. unfold get_response, call_llm_api.
  destruct (retrieve_context query) as [[|c cs]|e] eqn:Hret; cbn [fst snd].
  - split; [by left|]. left. done.
  - destruct sarvam_api_key as [key|] eqn:Hkey.
    + case_bool_decide as Hempty; cbn [fst snd].
      * split; [by left|]. eexists. split; [reflexivity|]. right. left. done.
      * set (sent := truncate_prompt
                       (build_prompt float fmt_2f (c :: cs) history query)).
        destruct (sarvam sent) as [response|e] eqn:Hsent; cbn [fst snd].
        { split; [right; by exists (c :: cs), key|].
          right. by exists (c :: cs), sent. }
        { split; [right; by exists (c :: cs), key|].
          eexists. split; [reflexivity|]. right. right. by exists sent. }
    + cbn [fst snd]. split; [by left|].
      eexists. split; [reflexivity|]. right. left. done.
  - split; [by left|]. eexists. split; [reflexivity|]. by left.
Qed.

End AnswerFacts.

Lemma prompt_uses_last_four_turns_witness :
  let turn_of (r : role) (c : string) :=
    {| turn_role := r; content := Str (lit c); timestamp := lit "t" |} in
  let recent := [turn_of User "q2"; turn_of Assistant "a2";
                 turn_of User "q3"; turn_of Assistant "a3"] in
  build_prompt unit (fun _ => lit "0.90") []
    ([turn_of User "q1"; turn_of Assistant "a1"] ++ recent) (lit "next?")
  = build_prompt unit (fun _ => lit "0.90") [] recent (lit "next?") /\
  history_text recent
  = join nl (map (fun msg => role_upper (turn_role msg) ++ lit ": "
                             ++ str_of (content msg)) recent).
Proof.
  cbv zeta.
  apply (prompt_uses_last_four_turns (fun _ : unit => lit "0.90")).
  reflexivity.
Defined.

(** ** Accepted uploads *)

(** The path a file of a job is written to. *)
Definition upload_path (job_id : text) (f : upload_file) : text :=
  path_join UPLOAD_DIR (job_id ++ lit "_" ++ uf_filename f).

(** The entry [upload_files] records for the file number [k] of a batch. *)
Definition file_entry (job_id : text) (now : nat -> text) (k : nat)
    (f : upload_file) : file_info :=
  {| filename := uf_filename f; path := upload_path job_id f;
     file_size := Z.of_nat (length (uf_content f)); upload_time := now k |}.

Lemma upload_path_inj (job_id : text) (f g : upload_file) :
  upload_path job_id f = upload_path job_id g -> uf_filename f = uf_filename g.
Proof.
  unfold upload_path, path_join.
  assert (Hsame : starts_with (lit "/") (job_id ++ lit "_" ++ uf_filename f)
                  = starts_with (lit "/") (job_id ++ lit "_" ++ uf_filename g)).
  { destruct job_id as [|c job]; reflexivity. }
  rewrite <- Hsame.
  destruct (starts_with (lit "/") (job_id ++ lit "_" ++ uf_filename f));
    intros H; repeat apply app_inv_head in H; exact H.
Qed.

Lemma persisted_app (job_id : text) (fs gs : list upload_file)
    (disk : gmap text (list Byte.byte)) :
  persisted job_id (fs ++ gs) disk = persisted job_id gs (persisted job_id fs disk).
Proof. unfold persisted. apply foldl_app. Qed.

Lemma persisted_other (job_id : text) (fs : list upload_file)
    (disk : gmap text (list Byte.byte)) (p : text) :
  Forall (fun f => upload_path job_id f <> p) fs ->
  persisted job_id fs disk !! p = disk !! p.
Proof.
  intros Hfs. revert disk. induction Hfs as [|f fs Hf _ IH]; intros disk.
  - done.
  - unfold persisted in *. cbn [foldl]. rewrite IH.
    fold (upload_path job_id f). by rewrite lookup_insert_ne.
Qed.

Lemma save_files_accepts (open_fails : text -> bool) (job_id : text)
    (now : nat -> text) (fs : list upload_file) :
  forallb acceptable fs = true ->
  forallb (writable open_fails job_id) fs = true ->
  forall i disk file_paths,
    save_files open_fails job_id now i fs disk file_paths
    = (inr (file_paths ++ imap (fun k f => file_entry job_id now (i + k) f) fs),
       persisted job_id fs disk).
Proof.
  induction fs as [|f rest IH]; intros Hok Hopen i disk file_paths.
  - cbn. by rewrite app_nil_r.
  - cbn [forallb] in Hok, Hopen. apply andb_true_iff in Hok as [Hf Hrest].
    apply andb_true_iff in Hopen as [Hw Hwrest].
    unfold acceptable in Hf. apply andb_true_iff in Hf as [Hpdf Hsize].
    apply negb_true_iff in Hsize. unfold writable in Hw.
    apply negb_true_iff in Hw.
    cbn [save_files]. rewrite Hpdf, Hsize, Hw. cbn [negb].
    rewrite (IH Hrest Hwrest).
    assert (Hlist :
      (file_paths
       ++ [{| filename := uf_filename f;
              path := path_join UPLOAD_DIR (job_id ++ lit "_" ++ uf_filename f);
              file_size := Z.of_nat (length (uf_content f));
              upload_time := now i |}])
      ++ imap (fun k g => file_entry job_id now (S i + k) g) rest
      = file_paths
        ++ imap (fun k g => file_entry job_id now (i + k) g) (f :: rest)).
    { rewrite <- app_assoc. f_equal.
      cbn [imap]. change ([?x] ++ ?l) with (x :: l).
      apply (f_equal2 cons).
      - unfold file_entry, upload_path. by rewrite Nat.add_0_r.
      - apply imap_ext. intros k g _. cbn. unfold file_entry.
        do 2 f_equal. lia. }
    by rewrite Hlist.
Qed.

Lemma save_files_unwritable (open_fails : text -> bool) (job_id : text)
    (now : nat -> text) (fs : list upload_file) :
  forallb acceptable fs = true ->
  forallb (writable open_fails job_id) fs = false ->
  forall i disk file_paths,
    save_files open_fails job_id now i fs disk file_paths
    = (inl internal_server_error,
       persisted job_id (saved_prefix open_fails job_id fs) disk).
Proof.
  induction fs as [|f rest IH]; intros Hok Hopen i disk file_paths;
    [discriminate|].
  cbn [forallb] in Hok, Hopen. apply andb_true_iff in Hok as [Hf Hrest].
  cbn [save_files saved_prefix]. rewrite Hf. cbn [andb].
  unfold acceptable in Hf. apply andb_true_iff in Hf as [Hpdf Hsize].
  apply negb_true_iff in Hsize. rewrite Hpdf, Hsize. cbn [negb].
  assert (Hw : writable open_fails job_id f
               = negb (open_fails
                         (path_join UPLOAD_DIR
                            (job_id ++ lit "_" ++ uf_filename f))))
    by reflexivity.
  rewrite Hw in *.
  destruct (open_fails
              (path_join UPLOAD_DIR (job_id ++ lit "_" ++ uf_filename f)));
    cbn [negb andb] in *; [done|].
  by rewrite (IH Hrest Hopen).
Qed.

Section AcceptedUploadFacts.

Context {float : Type}.
Variable open_fails : text -> bool.

(** X9: a batch that violates no constraint, and whose files can all be
    opened for writing, is accepted: the reply names the job and the number
    of files; every file is written under the upload directory, the path of
    a name holding the bytes of the last file of that name in the batch; the
    status endpoint shows the job pending with progress 0, no file processed
    and one entry for each file in the order of the batch; one task is
    scheduled for the job with these entries; other jobs, the sessions, the
    index and the metadata directory are as before.  When a file of such a
    batch cannot be opened, the request ends with status 500: the files
    before that file are written, and no job and no task is made. *)
Theorem upload_accepts_valid_batch (job_id : text) (now : nat -> text)
    (fs : list upload_file) (st : app float) :
  violates fs = false ->
  let out := upload_files float open_fails job_id now fs st in
  let entries := imap (fun k f => file_entry job_id now k f) fs in
  (forallb (writable open_fails job_id) fs = true ->
   out.1 = inr {| ur_job_id := job_id;
                  ur_message := lit "Files uploaded successfully";
                  ur_total_files := length fs |} /\
   get_upload_status float job_id out.2
   = inr {| status := Pending; progress := 0;
            message := lit "Files uploaded, processing started";
            files_processed := 0; total_files := length fs;
            files := entries |} /\
   background float out.2 = background float st ++ [(job_id, entries)] /\
   uploads float out.2 = persisted job_id fs (uploads float st) /\
   (forall pre f post,
      fs = pre ++ f :: post ->
      Forall (fun g => uf_filename g <> uf_filename f) post ->
      uploads float out.2 !! upload_path job_id f = Some (uf_content f)) /\
   (forall other, other <> job_id ->
      get_upload_status float other out.2
      = get_upload_status float other st)) /\
  (forallb (writable open_fails job_id) fs = false ->
   out.1 = inl internal_server_error /\
   job_status float out.2 = job_status float st /\
   background float out.2 = background float st /\
   uploads float out.2
   = persisted job_id (saved_prefix open_fails job_id fs) (uploads float st)) /\
  chat_sessions float out.2 = chat_sessions float st /\
  index float out.2 = index float st /\
  processed float out.2 = processed float st.
Proof.
  intros Hv out entries. unfold violates in Hv.
  apply orb_false_iff in Hv as [Hcount Hall].
  assert (Hok : forallb acceptable fs = true).
  { clear -Hall. induction fs as [|f fs IH]; [done|]. cbn in *.
    apply orb_false_iff in Hall as [Hf Hfs]. apply negb_false_iff in Hf.
    by rewrite Hf, IH. }
  subst out. unfold upload_files. rewrite Hcount.
  destruct (forallb (writable open_fails job_id) fs) eqn:Hopen.
  - rewrite (save_files_accepts open_fails job_id now fs Hok Hopen 0%nat
               (uploads float st) []).
    cbn [fst snd]. change ([] ++ ?l) with l. fold entries.
    split; [intros _|split; [discriminate|done]].
    split; [done|]. split.
    { unfold get_upload_status.
      cbn [job_status with_background with_job_status with_uploads].
      by rewrite lookup_insert_eq. }
    split; [done|]. split; [done|]. split.
    { intros pre f post -> Hpost.
      cbn [uploads with_background with_job_status with_uploads].
      rewrite persisted_app. change (f :: post) with ([f] ++ post).
      rewrite persisted_app, persisted_other.
      - unfold persisted. cbn [foldl]. fold (upload_path job_id f).
        by rewrite lookup_insert_eq.
      - eapply Forall_impl; [exact Hpost|]. cbn. intros g Hg Hpath.
        by apply upload_path_inj in Hpath. }
    intros other Hother. unfold get_upload_status.
    cbn [job_status with_background with_job_status with_uploads].
    by rewrite lookup_insert_ne.
  - rewrite (save_files_unwritable open_fails job_id now fs Hok Hopen 0%nat
               (uploads float st) []).
    cbn [fst snd]. split; [discriminate|]. split; [|done].
    intros _. done.
Qed.

End AcceptedUploadFacts.

(** A client file name with a directory in it. *)
Definition nested_pdf : upload_file :=
  {| uf_filename := lit "sub/a.pdf"; uf_content := one_byte |}.

Lemma upload_accepts_valid_batch_witness :
  let fs := [pdf_named "a.pdf"; pdf_named "b.pdf"] in
  let out :=
    upload_files unit flat_only (lit "job-1") (fun _ => lit "t0") fs
      empty_app in
  let entries :=
    imap (fun k f => file_entry (lit "job-1") (fun _ => lit "t0") k f) fs in
  let bad :=
    upload_files unit flat_only (lit "job-1") (fun _ => lit "t0")
      [pdf_named "a.pdf"; nested_pdf] empty_app in
  (out.1 = inr {| ur_job_id := lit "job-1";
                  ur_message := lit "Files uploaded successfully";
                  ur_total_files := 2 |} /\
   get_upload_status unit (lit "job-1") out.2
   = inr {| status := Pending; progress := 0;
            message := lit "Files uploaded, processing started";
            files_processed := 0; total_files := 2;
            files := entries |}) /\
  (bad.1 = inl internal_server_error /\ job_status unit bad.2 = ∅).
Proof.
  cbv zeta. split.
  - pose proof (upload_accepts_valid_batch (float := unit) flat_only
                  (lit "job-1") (fun _ => lit "t0")
                  [pdf_named "a.pdf"; pdf_named "b.pdf"] empty_app) as H.
    cbv zeta in H. destruct H as (H & _).
    + vm_compute. reflexivity.
    + destruct H as (H1 & H2 & _); [vm_compute; reflexivity|].
      split; [exact H1|exact H2].
  - pose proof (upload_accepts_valid_batch (float := unit) flat_only
                  (lit "job-1") (fun _ => lit "t0")
                  [pdf_named "a.pdf"; nested_pdf] empty_app) as H.
    cbv zeta in H. destruct H as (_ & H & _).
    + vm_compute. reflexivity.
    + destruct H as (H1 & H2 & _); [vm_compute; reflexivity|].
      split; [exact H1|exact H2].
Defined.

(** ** Sessions *)

Section SessionFacts.

Context {float : Type}.
Variable fmt_2f : float -> text.
Variable retrieve_context : text -> result (list (context float)).
Variable sarvam_api_key : option text.
Variable sarvam : text -> result answer.
Variable validation_error : text.

Let respond := get_response float fmt_2f retrieve_context sarvam_api_key sarvam.
Let chat_with :=
  chat float fmt_2f retrieve_context sarvam_api_key sarvam validation_error.

(** X10: [clear_chat] empties the history of the session and of no other, keeps
    the set of sessions as it is (a session the map does not hold is not
    created, a cleared one is not removed), and touches nothing else. *)
Theorem clear_chat_empties_one_session (sid : text) (st : app float) :
  let st' := clear_chat float sid st in
  get_chat_history float sid st' = [] /\
  (forall other, other <> sid ->
     chat_sessions float st' !! other = chat_sessions float st !! other) /\
  dom (chat_sessions float st') = dom (chat_sessions float st) /\
  active_sessions float st' = active_sessions float st /\
  job_status float st' = job_status float st /\
  uploads float st' = uploads float st /\
  index float st' = index float st.
Proof.
  intros st'. subst st'. unfold clear_chat, get_chat_history, active_sessions.
  destruct (chat_sessions float st !! sid) as [h|] eqn:Hsid.
  - cbn [chat_sessions with_chat_sessions job_status uploads index].
    rewrite lookup_insert_eq. split; [done|]. split.
    { intros other Hother. by rewrite lookup_insert_ne. }
    assert (Hdom : dom (<[sid := []]> (chat_sessions float st))
                   = dom (chat_sessions float st)).
    { rewrite dom_insert_L. apply (elem_of_dom_2 (D := gset text)) in Hsid.
      apply subseteq_union_1_L. by apply singleton_subseteq_l. }
    split; [exact Hdom|]. split; [|done].
    by rewrite <- !size_dom, Hdom.
  - rewrite Hsid. done.
Qed.

(** X11: two requests on one session, both answered: the history endpoint shows
    the turns of before followed by user, assistant, user, assistant, in that
    order, and the second request was given the history that ends with the
    first exchange. *)
Theorem two_chats_four_turns (sid : text) (fresh1 fresh2 : text)
    (t1 t2 t3 t4 : text) (q1 q2 : text) (st : app float)
    (a1 a2 : text) (s1 s2 : list (source_info float)) (p1 p2 : list text) :
  sid <> [] ->
  let before := get_chat_history float sid st in
  let first :=
    [{| turn_role := User; content := Str q1; timestamp := t1 |};
     {| turn_role := Assistant; content := Str a1; timestamp := t2 |}] in
  let second :=
    [{| turn_role := User; content := Str q2; timestamp := t3 |};
     {| turn_role := Assistant; content := Str a2; timestamp := t4 |}] in
  respond q1 before = (Ok (Str a1, s1), p1) ->
  respond q2 (before ++ first) = (Ok (Str a2, s2), p2) ->
  let m1 := {| cm_message := q1; cm_session_id := Some sid |} in
  let m2 := {| cm_message := q2; cm_session_id := Some sid |} in
  let out1 := chat_with fresh1 t1 t2 m1 st in
  let out2 := chat_with fresh2 t3 t4 m2 out1.1.2 in
  out1.1.1 = inr {| cr_response := a1; cr_sources := s1;
                    cr_session_id := sid |} /\
  out2.1.1 = inr {| cr_response := a2; cr_sources := s2;
                    cr_session_id := sid |} /\
  get_chat_history float sid out2.1.2 = before ++ first ++ second.
Proof.
  intros Hsid before first second H1 H2 m1 m2 out1 out2.
  assert (Hs1 : session_of fresh1 m1 = sid).
  { unfold session_of, m1. cbn. by rewrite bool_decide_eq_false_2. }
  assert (Hs2 : session_of fresh2 m2 = sid).
  { unfold session_of, m2. cbn. by rewrite bool_decide_eq_false_2. }
  destruct (chat_unfold fmt_2f retrieve_context sarvam_api_key sarvam
              validation_error
              fresh1 t1 t2 m1 st) as (_ & _ & Hc1).
  rewrite Hs1 in Hc1. fold before in Hc1. cbn [cm_message m1] in Hc1.
  fold respond in Hc1. rewrite H1 in Hc1.
  assert (Hh1 : get_chat_history float sid out1.1.2 = before ++ first).
  { unfold out1, chat_with. rewrite Hc1. cbn [fst snd].
    rewrite get_chat_history_insert, bool_decide_eq_true_2 by done.
    reflexivity. }
  destruct (chat_unfold fmt_2f retrieve_context sarvam_api_key sarvam
              validation_error
              fresh2 t3 t4 m2 out1.1.2) as (_ & _ & Hc2).
  rewrite Hs2, Hh1 in Hc2. cbn [cm_message m2] in Hc2.
  fold respond in Hc2. rewrite H2 in Hc2.
  split; [unfold out1, chat_with; by rewrite Hc1|].
  split; [unfold out2, chat_with; by rewrite Hc2|].
  unfold out2, chat_with. rewrite Hc2. cbn [fst snd].
  rewrite get_chat_history_insert, bool_decide_eq_true_2 by done.
  rewrite <- app_assoc. reflexivity.
Qed.

End SessionFacts.

Lemma two_chats_four_turns_witness :
  let ctx := [{| ctx_text := lit "Sales rose."; ctx_source := lit "a.pdf";
                 ctx_score := tt; ctx_chunk_id := 0%nat |}] in
  let talk := chat unit (fun _ => lit "0.90") (fun _ => Ok ctx)
                (Some (lit "key")) (fun _ => Ok (Str (lit "They rose.")))
                (lit "not a string") in
  let out1 := talk (lit "u1") (lit "t1") (lit "t2")
                {| cm_message := lit "Sales?";
                   cm_session_id := Some (lit "s-1") |} empty_app in
  let out2 := talk (lit "u2") (lit "t3") (lit "t4")
                {| cm_message := lit "And costs?";
                   cm_session_id := Some (lit "s-1") |} out1.1.2 in
  map turn_role (get_chat_history unit (lit "s-1") out2.1.2)
  = [User; Assistant; User; Assistant].
Proof.
  cbv zeta.
  pose proof (two_chats_four_turns (fun _ : unit => lit "0.90")
                (fun _ => Ok [{| ctx_text := lit "Sales rose.";
                                 ctx_source := lit "a.pdf";
                                 ctx_score := tt; ctx_chunk_id := 0%nat |}])
                (Some (lit "key")) (fun _ => Ok (Str (lit "They rose.")))
                (lit "not a string") (lit "s-1") (lit "u1") (lit "u2")
                (lit "t1") (lit "t2") (lit "t3") (lit "t4")
                (lit "Sales?") (lit "And costs?") empty_app
                (lit "They rose.") (lit "They rose.")) as H.
  cbv zeta in H.
  edestruct H as (_ & _ & Hhist).
  - discriminate.
  - reflexivity.
  - reflexivity.
  - rewrite Hhist. reflexivity.
Defined.

(** ** The record of a job after its task *)

Section TaskRecordFacts.

Context {float : Type}.
Variable unicode_word : N -> bool.
Variable pdf_pages : text -> result (list text).
Variable encode : text -> list float.
Variable encode_error : list text -> option text.
Variable upsert_error : list (vector_record float) -> option text.
Variable half_scale : nat -> nat -> Z.
Variable job_id : text.

Let parse (f : file_info) : result (list chunk) :=
  process_pdf unicode_word doc_processor pdf_pages (path f) (filename f).
Let store := store_embeddings float encode encode_error upsert_error.
Let files_loop := chunk_files float unicode_word pdf_pages half_scale job_id.

Lemma files_loop_cons (n idx : nat) (file : file_info) (rest : list file_info)
    (st : app float) (acc : list chunk) :
  let st1 := set_job float job_id (set_progress (half_scale idx n)) st in
  let st2 := set_job float job_id
               (set_message (lit "Processing " ++ filename file)) st1 in
  let st3 := set_job float job_id (set_files_processed (idx + 1)) st2 in
  files_loop n idx (file :: rest) st acc
  = match parse file with
    | Raise e => (Raise e, st2, [st1; st2])
    | Ok chunks =>
        ((files_loop n (S idx) rest st3 (acc ++ chunks)).1.1,
         (files_loop n (S idx) rest st3 (acc ++ chunks)).1.2,
         st1 :: st2 :: st3
         :: (files_loop n (S idx) rest st3 (acc ++ chunks)).2)
    end.
Proof.
  cbv zeta. unfold files_loop, parse. cbn [chunk_files].
  destruct (process_pdf unicode_word doc_processor pdf_pages (path file)
              (filename file)); [|done].
  by destruct (chunk_files float unicode_word pdf_pages half_scale job_id n
                 (S idx) rest _ _) as [[r st'] tr].
Qed.

(** The job record after the loop went through files that all parse. *)
Lemma files_loop_ok (n : nat) (fs : list file_info)
    (chunkss : list (list chunk)) :
  Forall2 (fun f cs => parse f = Ok cs) fs chunkss ->
  forall (idx : nat) (st : app float) (acc : list chunk) (j : job),
  job_status float st !! job_id = Some j ->
  files_processed j = idx ->
  exists j',
    (files_loop n idx fs st acc).1.1 = Ok (acc ++ concat chunkss) /\
    job_status float (files_loop n idx fs st acc).1.2 !! job_id = Some j' /\
    index float (files_loop n idx fs st acc).1.2 = index float st /\
    processed float (files_loop n idx fs st acc).1.2 = processed float st /\
    status j' = status j /\ total_files j' = total_files j /\
    files j' = files j /\ files_processed j' = (idx + length fs)%nat.
Proof.
  induction 1 as [|f cs fs chunkss Hf _ IH]; intros idx st acc j Hj Hfp.
  - exists j. cbn. rewrite app_nil_r. repeat split; try done. lia.
  - rewrite files_loop_cons. cbv zeta. rewrite Hf. cbn [fst snd].
    set (st3 := set_job float job_id (set_files_processed (idx + 1)) _).
    assert (Hj3 : job_status float st3 !! job_id
                  = Some (set_files_processed (idx + 1)
                            (set_message (lit "Processing " ++ filename f)
                               (set_progress (half_scale idx n) j))))
      by (unfold st3; by rewrite !job_set_job, Hj).
    destruct (IH (S idx) st3 (acc ++ cs) _ Hj3 ltac:(cbn; lia))
      as (j' & Hr & Hj' & Hix & Hpr & Hs & Ht & Hfiles & Hcount).
    exists j'. rewrite Hr, Hj', Hix, Hpr. cbn [concat length].
    rewrite <- app_assoc. repeat split; try done. lia.
Qed.

(** The job record after the loop stopped at the first file that raises. *)
Lemma files_loop_fail (n : nat) (pre : list file_info) (f : file_info)
    (post : list file_info) (e : text) :
  Forall (fun g => exists cs, parse g = Ok cs) pre ->
  parse f = Raise e ->
  forall (idx : nat) (st : app float) (acc : list chunk) (j : job),
  job_status float st !! job_id = Some j ->
  files_processed j = idx ->
  exists j',
    (files_loop n idx (pre ++ f :: post) st acc).1.1 = Raise e /\
    job_status float (files_loop n idx (pre ++ f :: post) st acc).1.2 !! job_id
    = Some j' /\
    status j' = status j /\ total_files j' = total_files j /\
    files j' = files j /\
    files_processed j' = (idx + length pre)%nat /\
    progress j' = half_scale (idx + length pre) n.
Proof.
  intros Hpre Hf. induction Hpre as [|g pre [cs Hg] _ IH];
    intros idx st acc j Hj Hfp.
  - change ([] ++ f :: post) with (f :: post).
    rewrite files_loop_cons. cbv zeta. rewrite Hf. cbn [fst snd].
    eexists. rewrite !job_set_job, Hj. cbn [fmap option_fmap option_map].
    split; [done|]. split; [reflexivity|]. cbn.
    rewrite !Nat.add_0_r. repeat split; done.
  - change ((g :: pre) ++ f :: post) with (g :: pre ++ f :: post).
    rewrite files_loop_cons. cbv zeta. rewrite Hg. cbn [fst snd].
    set (st3 := set_job float job_id (set_files_processed (idx + 1)) _).
    assert (Hj3 : job_status float st3 !! job_id
                  = Some (set_files_processed (idx + 1)
                            (set_message (lit "Processing " ++ filename g)
                               (set_progress (half_scale idx n) j))))
      by (unfold st3; by rewrite !job_set_job, Hj).
    destruct (IH (S idx) st3 (acc ++ cs) _ Hj3 ltac:(cbn; lia))
      as (j' & Hr & Hj' & Hs & Ht & Hfiles & Hcount & Hprog).
    exists j'. rewrite Hr, Hj'. cbn [length].
    replace (idx + S (length pre))%nat with (S idx + length pre)%nat by lia.
    repeat split; done.
Qed.

Variable now : text.
Variable file_paths : list file_info.
Variable st : app float.
Variable j0 : job.

Hypothesis job_created : job_status float st !! job_id = Some j0.
Hypothesis none_processed : files_processed j0 = 0%nat.

Let run : list (app float) :=
  process_documents_task float unicode_word pdf_pages encode encode_error
    upsert_error half_scale now job_id file_paths st.

Lemma run_unfold :
  run =
  let st1 := set_job float job_id (set_status Processing) st in
  let st2 := set_job float job_id
               (set_message (lit "Extracting text from PDFs")) st1 in
  let loop := files_loop (length file_paths) 0 file_paths st2 [] in
  match loop.1.1 with
  | Raise e => [st1; st2] ++ loop.2 ++ fail_job float job_id e loop.1.2
  | Ok all_chunks =>
      let st4 := set_job float job_id (set_progress 60) loop.1.2 in
      let st5 := set_job float job_id
                   (set_message (lit "Generating embeddings")) st4 in
      match store all_chunks job_id (index float st5) with
      | (Raise e, ix) =>
          [st1; st2] ++ loop.2 ++ [st4; st5; with_index float ix st5]
          ++ fail_job float job_id e (with_index float ix st5)
      | (Ok _, ix) =>
          let st6 := with_index float ix st5 in
          let st7 :=
            with_processed float
              (<[metadata_path job_id :=
                   {| md_job_id := job_id; md_files := file_paths;
                      md_chunks_count := length all_chunks;
                      md_processed_at := now |}]> (processed float st6)) st6 in
          let st8 := set_job float job_id (set_status Completed) st7 in
          let st9 := set_job float job_id (set_progress 100) st8 in
          let st10 :=
            set_job float job_id
              (set_message (lit "Processing completed successfully")) st9 in
          [st1; st2] ++ loop.2 ++ [st4; st5; st6; st7; st8; st9; st10]
      end
  end.
Proof.
  unfold run, process_documents_task.
  rewrite bool_decide_eq_false_2 by (rewrite job_created; discriminate).
  cbv zeta. unfold files_loop.
  destruct (chunk_files float unicode_word pdf_pages half_scale job_id
              (length file_paths) 0 file_paths _ []) as [[[all|e] st3] tr];
    cbn [fst snd]; [|done].
  fold store. by destruct (store all job_id _) as [[[]|e] ix].
Qed.

Lemma last_of_run (front middle : list (app float)) (a b : app float)
    (tail : list (app float)) :
  last (front ++ middle ++ tail ++ [a; b]) = Some b.
Proof. rewrite !last_app. reflexivity. Qed.

(** X12: what the status endpoint shows once the task of a job created with no
    file processed has run.  When every file parses and the chunks are
    stored: completed, progress 100, as many files processed as the task was
    given.  When the storing raises: failed with the error, progress 60, all
    files processed.  When a file raises: failed with the error, as many
    files processed as came before that file, and the progress set for that
    file.  The number of files and the file entries of the record stay as
    the upload made them. *)
Theorem job_record_after_task :
  (forall chunkss ix,
     Forall2 (fun f cs => parse f = Ok cs) file_paths chunkss ->
     store (concat chunkss) job_id (index float st) = (Ok tt, ix) ->
     exists s, last run = Some s /\
       get_upload_status float job_id s
       = inr {| status := Completed; progress := 100;
                message := lit "Processing completed successfully";
                files_processed := length file_paths;
                total_files := total_files j0; files := files j0 |}) /\
  (forall chunkss e ix,
     Forall2 (fun f cs => parse f = Ok cs) file_paths chunkss ->
     store (concat chunkss) job_id (index float st) = (Raise e, ix) ->
     exists s, last run = Some s /\
       get_upload_status float job_id s
       = inr {| status := Failed; progress := 60;
                message := lit "Error: " ++ e;
                files_processed := length file_paths;
                total_files := total_files j0; files := files j0 |}) /\
  (forall pre f post e,
     file_paths = pre ++ f :: post ->
     Forall (fun g => exists cs, parse g = Ok cs) pre ->
     parse f = Raise e ->
     exists s, last run = Some s /\
       get_upload_status float job_id s
       = inr {| status := Failed;
                progress := half_scale (length pre) (length file_paths);
                message := lit "Error: " ++ e;
                files_processed := length pre;
                total_files := total_files j0; files := files j0 |}).
Proof.
  set (st1 := set_job float job_id (set_status Processing) st).
  set (st2 := set_job float job_id
                (set_message (lit "Extracting text from PDFs")) st1).
  assert (Hj2 : job_status float st2 !! job_id
                = Some (set_message (lit "Extracting text from PDFs")
                          (set_status Processing j0)))
    by (unfold st2, st1; by rewrite !job_set_job, job_created).
  assert (Hix2 : index float st2 = index float st) by done.
  split; [|split].
  - intros chunkss ix Hok Hstore.
    destruct (files_loop_ok (length file_paths) file_paths chunkss Hok
                0%nat st2 [] _ Hj2 none_processed)
      as (j' & Hr & Hj' & Hix & _ & Hs & Ht & Hfiles & Hcount).
    rewrite run_unfold. cbv zeta. fold st1 st2. rewrite Hr.
    change ([] ++ concat chunkss) with (concat chunkss).
    cbn [index set_job with_job_status]. rewrite Hix, Hix2, Hstore.
    eexists. split; [rewrite (app_assoc [_; _]); apply
      (last_of_run _ [] _ _ [_; _; _; _; _])|].
    unfold get_upload_status. rewrite !job_set_job.
    cbn [job_status with_processed with_index]. rewrite !job_set_job, Hj'.
    unfold set_message, set_progress, set_status in *. cbn -[lit] in *.
    by rewrite Ht, Hfiles, Hcount.
  - intros chunkss e ix Hok Hstore.
    destruct (files_loop_ok (length file_paths) file_paths chunkss Hok
                0%nat st2 [] _ Hj2 none_processed)
      as (j' & Hr & Hj' & Hix & _ & Hs & Ht & Hfiles & Hcount).
    rewrite run_unfold. cbv zeta. fold st1 st2. rewrite Hr.
    change ([] ++ concat chunkss) with (concat chunkss).
    cbn [index set_job with_job_status]. rewrite Hix, Hix2, Hstore.
    unfold fail_job.
    eexists. split; [rewrite (app_assoc [_; _]); apply
      (last_of_run _ [] _ _ [_; _; _])|].
    unfold get_upload_status. rewrite !job_set_job.
    cbn [job_status with_processed with_index]. rewrite !job_set_job, Hj'.
    unfold set_message, set_progress, set_status in *. cbn -[lit] in *.
    by rewrite Ht, Hfiles, Hcount.
  - intros pre f post e Hsplit Hpre Hf.
    destruct (files_loop_fail (length file_paths) pre f post e Hpre Hf
                0%nat st2 [] _ Hj2 none_processed)
      as (j' & Hr & Hj' & Hs & Ht & Hfiles & Hcount & Hprog).
    rewrite run_unfold. cbv zeta. fold st1 st2. rewrite Hsplit in *.
    rewrite Hr. unfold fail_job.
    eexists. split; [apply (last_of_run _ _ _ _ [])|].
    unfold get_upload_status. rewrite !job_set_job, Hj'.
    unfold set_message, set_progress, set_status in *. cbn -[lit] in *.
    by rewrite Ht, Hfiles, Hcount, Hprog.
Qed.

End TaskRecordFacts.

Lemma job_record_after_task_witness :
  exists s,
    last (process_documents_task unit (fun _ => false)
            (fun _ => Ok [lit "Quarterly report. Sales rose."])
            (fun _ => []) (fun _ => None) (fun _ => None) floor_scale
            (lit "t1") (lit "job-1") uploaded_files uploaded) = Some s /\
    get_upload_status unit (lit "job-1") s
    = inr {| status := Completed; progress := 100;
             message := lit "Processing completed successfully";
             files_processed := 1; total_files := 1;
             files := uploaded_files |}.
Proof.
  eapply (proj1 (job_record_after_task (fun _ => false)
                   (fun _ => Ok [lit "Quarterly report. Sales rose."])
                   (fun _ : text => @nil unit) (fun _ => None) (fun _ => None)
                   floor_scale (lit "job-1") (lit "t1") uploaded_files
                   uploaded uploaded_job _ _)).
  - constructor; [reflexivity|constructor].
  - reflexivity.
  Unshelve.
  + vm_compute. reflexivity.
  + reflexivity.
Defined.

(** ** What the task leaves alone *)

Section TaskFrameFacts.

Context {float : Type}.
Variable unicode_word : N -> bool.
Variable pdf_pages : text -> result (list text).
Variable encode : text -> list float.
Variable encode_error : list text -> option text.
Variable upsert_error : list (vector_record float) -> option text.
Variable half_scale : nat -> nat -> Z.
Variable job_id : text.

(** State [s] differs from [st] at most in the record of the job, in records
    added to the index and in the metadata file of the job. *)
Definition touches_only_job (st s : app float) : Prop :=
  uploads float s = uploads float st /\
  chat_sessions float s = chat_sessions float st /\
  background float s = background float st /\
  dom (job_status float s) = dom (job_status float st) /\
  (forall other, other <> job_id ->
     job_status float s !! other = job_status float st !! other) /\
  (exists added, index float s = index float st ++ added) /\
  (forall p, p <> metadata_path job_id ->
     processed float s !! p = processed float st !! p).

Lemma touches_refl (st : app float) : touches_only_job st st.
Proof.
  repeat split; try done. exists []. by rewrite app_nil_r.
Qed.

Lemma touches_set_job (st s : app float) (f : job -> job) :
  touches_only_job st s -> touches_only_job st (set_job float job_id f s).
Proof.
  intros (Hu & Hc & Hb & Hd & Ho & Hi & Hp).
  unfold touches_only_job, set_job.
  cbn [uploads chat_sessions background job_status index processed
       with_job_status].
  repeat split; try done.
  - by rewrite dom_alter_L.
  - intros other Hother. rewrite lookup_alter_ne by done. by apply Ho.
Qed.

Lemma touches_with_index (st s : app float) (ix : list (vector_record float)) :
  (exists more, ix = index float s ++ more) ->
  touches_only_job st s -> touches_only_job st (with_index float ix s).
Proof.
  intros [more ->] (Hu & Hc & Hb & Hd & Ho & [added Hi] & Hp).
  unfold touches_only_job.
  cbn [uploads chat_sessions background job_status index processed with_index].
  repeat split; try done. exists (added ++ more). by rewrite Hi, app_assoc.
Qed.

Lemma touches_with_metadata (st s : app float) (md : job_metadata) :
  touches_only_job st s ->
  touches_only_job st
    (with_processed float (<[metadata_path job_id := md]> (processed float s)) s).
Proof.
  intros (Hu & Hc & Hb & Hd & Ho & Hi & Hp).
  unfold touches_only_job.
  cbn [uploads chat_sessions background job_status index processed
       with_processed].
  repeat split; try done.
  intros p Hne. rewrite lookup_insert_ne by done. by apply Hp.
Qed.

Ltac each_state :=
  repeat match goal with
         | |- Forall _ (_ :: _) => apply List.Forall_cons
         | |- Forall _ [] => apply List.Forall_nil
         | |- Forall _ (_ ++ _) => apply Forall_app; split
         end.

Lemma chunk_files_touches (st0 : app float) (n : nat) (fs : list file_info) :
  forall (idx : nat) (st : app float) (acc : list chunk),
  touches_only_job st0 st ->
  touches_only_job st0
    (chunk_files float unicode_word pdf_pages half_scale job_id n idx fs st
       acc).1.2 /\
  Forall (touches_only_job st0)
    (chunk_files float unicode_word pdf_pages half_scale job_id n idx fs st
       acc).2.
Proof.
  induction fs as [|file rest IH]; intros idx st acc Hst.
  - cbn. split; [done|constructor].
  - cbn [chunk_files].
    set (st1 := set_job float job_id (set_progress (half_scale idx n)) st).
    set (st2 := set_job float job_id
                  (set_message (lit "Processing " ++ filename file)) st1).
    assert (H1 : touches_only_job st0 st1) by (by apply touches_set_job).
    assert (H2 : touches_only_job st0 st2) by (by apply touches_set_job).
    destruct (process_pdf unicode_word doc_processor pdf_pages (path file)
                (filename file)) as [chunks|e].
    + set (st3 := set_job float job_id (set_files_processed (idx + 1)) st2).
      assert (H3 : touches_only_job st0 st3) by (by apply touches_set_job).
      destruct (IH (S idx) st3 (acc ++ chunks) H3) as [Hend Hall].
      destruct (chunk_files float unicode_word pdf_pages half_scale job_id n
                  (S idx) rest st3 (acc ++ chunks)) as [[r st'] tr].
      cbn [fst snd] in *. split; [done|].
      constructor; [exact H1|]. constructor; [exact H2|].
      constructor; [exact H3|exact Hall].
    + cbn [fst snd]. split; [done|].
      constructor; [exact H1|]. constructor; [exact H2|]. constructor.
Qed.

(** X13: in every state the task goes through, whatever it is given: the upload
    directory, the chat sessions and the scheduled tasks are as before; the
    same jobs exist, so the job count of the health endpoint is unchanged,
    and the record of every other job is as it was; the index has only grown
    at its end; of the metadata directory only the file of the job may have
    changed. *)
Theorem task_touches_only_its_job (now : text) (file_paths : list file_info)
    (st : app float) :
  Forall (fun s => touches_only_job st s /\
                   active_jobs float s = active_jobs float st)
    (process_documents_task float unicode_word pdf_pages encode encode_error
       upsert_error half_scale now job_id file_paths st).
Proof.
  assert (Hsize : forall s, touches_only_job st s ->
            touches_only_job st s /\
            active_jobs float s = active_jobs float st).
  { intros s Hs. split; [done|]. unfold active_jobs.
    destruct Hs as (_ & _ & _ & Hd & _). by rewrite <- !size_dom, Hd. }
  eapply Forall_impl; [|exact Hsize].
  unfold process_documents_task. case_bool_decide; [constructor|].
  set (st1 := set_job float job_id (set_status Processing) st).
  set (st2 := set_job float job_id
                (set_message (lit "Extracting text from PDFs")) st1).
  assert (H1 : touches_only_job st st1)
    by (apply touches_set_job, touches_refl).
  assert (H2 : touches_only_job st st2) by (by apply touches_set_job).
  destruct (chunk_files_touches st (length file_paths) file_paths 0 st2 [] H2)
    as [H3 Htr].
  destruct (chunk_files float unicode_word pdf_pages half_scale job_id
              (length file_paths) 0 file_paths st2 []) as [[r st3] tr].
  cbn [fst snd] in *.
  assert (Hfail : forall e s, touches_only_job st s ->
            Forall (touches_only_job st) (fail_job float job_id e s)).
  { intros e s Hs. unfold fail_job.
    each_state; by repeat apply touches_set_job. }
  destruct r as [all_chunks|e].
  - cbv zeta.
    set (st4 := set_job float job_id (set_progress 60) st3).
    set (st5 := set_job float job_id
                  (set_message (lit "Generating embeddings")) st4).
    assert (H4 : touches_only_job st st4) by (by apply touches_set_job).
    assert (H5 : touches_only_job st st5) by (by apply touches_set_job).
    destruct (store_embeddings_written encode encode_error upsert_error
                all_chunks job_id (index float st5)) as [[k Hk] _].
    destruct (store_embeddings float encode encode_error upsert_error
                all_chunks job_id (index float st5)) as [[[]|e] ix];
      cbn [fst snd] in Hk.
    + pose proof (touches_with_index st st5 ix (ex_intro _ _ Hk) H5) as H6.
      pose proof (touches_with_metadata st _
                    {| md_job_id := job_id; md_files := file_paths;
                       md_chunks_count := length all_chunks;
                       md_processed_at := now |} H6) as H7.
      each_state; try done; by repeat apply touches_set_job.
    + pose proof (touches_with_index st st5 ix (ex_intro _ _ Hk) H5) as H6.
      each_state; try done. by apply Hfail.
  - each_state; try done. by apply Hfail.
Qed.

End TaskFrameFacts.

(** ** What cleaning keeps and what it removes *)

(** The text does not end with white space. *)
Definition no_trail (s : text) : bool :=
  match last s with
  | Some c => negb (is_space c)
  | None => true
  end.

Definition not_space (c : N) : bool := negb (is_space c).

(** A white-space character of a cleaned text is the plain space. *)
Definition plain_space (c : N) : bool := negb (is_space c) || N.eqb c 32.

Section StepFacts.

Variable P : N -> bool.

Lemma removal_is_filter (cls : N -> bool) (s : text) :
  sub_runs cls [] s = List.filter (fun c => negb (cls c)) s.
Proof.
  induction s as [|c [|d t] IH]; [done| |].
  - cbn. by destruct (cls c).
  - cbn [List.filter] in *. destruct (cls c) eqn:Hc; cbn [negb].
    + destruct (cls d) eqn:Hd; cbn [negb] in *.
      * rewrite sub_runs_inside by done. exact IH.
      * rewrite sub_runs_last by done. rewrite sub_runs_skip in IH by done.
        exact IH.
    + rewrite sub_runs_skip by done. by rewrite IH.
Qed.

Lemma filter_forallb (Q : N -> bool) (s : text) :
  forallb P s = true -> forallb P (List.filter Q s) = true.
Proof.
  induction s as [|c s IH]; [done|]. cbn [forallb List.filter]. intros H.
  apply andb_true_iff in H as [Hc Hs]. destruct (Q c); [|by apply IH].
  cbn [forallb]. by rewrite Hc, IH.
Qed.

Lemma ssp_forallb (s : text) :
  forallb P s = true -> forallb P (sub_space_punct s) = true.
Proof.
  induction s as [|c s IH]; [done|]. cbn [forallb sub_space_punct]. intros H.
  apply andb_true_iff in H as [Hc Hs].
  destruct (is_space c && punct_follows s); [by apply IH|].
  cbn [forallb]. by rewrite Hc, IH.
Qed.

Lemma lstrip_forallb (s : text) :
  forallb P s = true -> forallb P (lstrip s) = true.
Proof.
  induction s as [|c s IH]; [done|]. intros H. cbn [lstrip].
  destruct (is_space c); [|done]. apply IH.
  cbn [forallb] in H. by apply andb_true_iff in H as [_ H].
Qed.

Lemma rstrip_forallb (s : text) :
  forallb P s = true -> forallb P (rstrip s) = true.
Proof.
  induction s as [|c s IH]; [done|]. cbn [forallb rstrip]. intros H.
  apply andb_true_iff in H as [Hc Hs]. specialize (IH Hs).
  destruct (rstrip s).
  - destruct (is_space c); [done|]. cbn. by rewrite Hc.
  - cbn [forallb] in *. by rewrite Hc, IH.
Qed.

End StepFacts.

Lemma lit_space : lit " " = [32%N].
Proof. reflexivity. Qed.

Lemma collapse_cons (c : N) (s : text) :
  sub_runs is_space (lit " ") (c :: s)
  = if is_space c
    then match s with
         | d :: _ => if is_space d then sub_runs is_space (lit " ") s
                     else 32%N :: sub_runs is_space (lit " ") s
         | [] => [32%N]
         end
    else c :: sub_runs is_space (lit " ") s.
Proof. reflexivity. Qed.

Lemma filter_collapse (Q : N -> bool) (x : text) :
  (forall c, Q c = true -> is_space c = false) ->
  List.filter Q (sub_runs is_space (lit " ") x) = List.filter Q x.
Proof.
  intros HQ.
  assert (Hsp : forall c, is_space c = true -> Q c = false).
  { intros c Hc. destruct (Q c) eqn:Hq; [|done]. apply HQ in Hq. congruence. }
  pose proof (Hsp 32%N eq_refl) as H32.
  induction x as [|c x IH]; [done|]. rewrite collapse_cons.
  cbn [List.filter]. destruct (is_space c) eqn:Hc.
  - rewrite (Hsp _ Hc). destruct x as [|d t].
    + cbn [List.filter]. by rewrite H32.
    + destruct (is_space d); [exact IH|].
      cbn [List.filter]. rewrite H32. exact IH.
  - cbn [List.filter]. by rewrite IH.
Qed.

Lemma filter_ssp (s : text) :
  List.filter not_space (sub_space_punct s) = List.filter not_space s.
Proof.
  induction s as [|c s IH]; [done|]. cbn [sub_space_punct List.filter].
  unfold not_space at 2. destruct (is_space c) eqn:Hc; cbn [negb andb].
  - destruct (punct_follows s); [exact IH|].
    cbn [List.filter]. unfold not_space at 1. by rewrite Hc.
  - cbn [List.filter]. unfold not_space at 1. rewrite Hc. cbn. by rewrite IH.
Qed.

Lemma filter_lstrip (s : text) :
  List.filter not_space (lstrip s) = List.filter not_space s.
Proof.
  induction s as [|c s IH]; [done|]. cbn [lstrip List.filter].
  unfold not_space at 2. destruct (is_space c) eqn:Hc; [exact IH|].
  cbn [List.filter]. unfold not_space at 1. by rewrite Hc.
Qed.

Lemma filter_rstrip (s : text) :
  List.filter not_space (rstrip s) = List.filter not_space s.
Proof.
  induction s as [|c s IH]; [done|]. cbn [rstrip List.filter].
  destruct (rstrip s) as [|d r].
  - cbn [List.filter] in IH. rewrite <- IH. unfold not_space.
    destruct (is_space c) eqn:Hc; cbn; [done|]. by rewrite Hc.
  - cbn [List.filter]. by rewrite <- IH.
Qed.

Lemma collapse_plain (x : text) :
  forallb plain_space (sub_runs is_space (lit " ") x) = true.
Proof.
  induction x as [|c x IH]; [done|]. rewrite collapse_cons.
  destruct (is_space c) eqn:Hc.
  - destruct x as [|d t]; [done|].
    destruct (is_space d); [exact IH|]. cbn [forallb]. by rewrite IH.
  - cbn [forallb]. unfold plain_space at 1. by rewrite Hc, IH.
Qed.

Lemma length_collapse (x : text) :
  (length (sub_runs is_space (lit " ") x) <= length x)%nat.
Proof.
  induction x as [|c x IH]; [done|]. rewrite collapse_cons.
  destruct (is_space c).
  - destruct x as [|d t]; [done|].
    destruct (is_space d); cbn [length] in *; lia.
  - cbn [length]. lia.
Qed.

Lemma length_filter_le (Q : N -> bool) (s : text) :
  (length (List.filter Q s) <= length s)%nat.
Proof.
  induction s as [|c s IH]; [done|]. cbn [List.filter].
  destruct (Q c); cbn [length]; lia.
Qed.

Lemma length_ssp (s : text) : (length (sub_space_punct s) <= length s)%nat.
Proof.
  induction s as [|c s IH]; [done|]. cbn [sub_space_punct].
  destruct (is_space c && punct_follows s); cbn [length]; lia.
Qed.

Lemma length_lstrip (s : text) : (length (lstrip s) <= length s)%nat.
Proof.
  induction s as [|c s IH]; [done|]. cbn [lstrip].
  destruct (is_space c); cbn [length]; lia.
Qed.

Lemma length_rstrip (s : text) : (length (rstrip s) <= length s)%nat.
Proof.
  induction s as [|c s IH]; [done|]. cbn [rstrip].
  destruct (rstrip s); [destruct (is_space c)|]; cbn [length] in *; lia.
Qed.

Lemma rstrip_no_trail (s : text) : no_trail (rstrip s) = true.
Proof.
  unfold no_trail. induction s as [|c s IH]; [done|]. cbn [rstrip].
  destruct (rstrip s) as [|d r] eqn:Hr.
  - destruct (is_space c) eqn:Hc; [done|]. cbn. by rewrite Hc.
  - by rewrite last_cons_cons.
Qed.

Section CleanShapeFacts.

Variable unicode_word : N -> bool.

Let kept := kept unicode_word.
Let clean_text := clean_text unicode_word.

Lemma clean_text_solid (x : text) :
  List.filter not_space (clean_text x)
  = List.filter (fun c => kept c && not_space c) x.
Proof.
  unfold clean_text, DocumentProcessor.clean_text. cbv zeta. fold kept.
  unfold strip. rewrite removal_is_filter.
  rewrite filter_rstrip, filter_lstrip, filter_ssp.
  assert (Hff : forall s,
            List.filter not_space
              (List.filter (fun c => negb (negb (kept c))) s)
            = List.filter (fun c => kept c && not_space c) s).
  { induction s as [|c s IH]; [done|]. cbn [List.filter].
    rewrite negb_involutive. destruct (kept c); cbn [andb List.filter].
    - destruct (not_space c); by rewrite IH.
    - exact IH. }
  rewrite Hff. apply filter_collapse.
  intros c Hc. apply andb_true_iff in Hc as [_ Hc].
  by apply negb_true_iff in Hc.
Qed.

(** X14: what [clean_text] does to any text.  The characters that are no
    white space and are on the white list stay, all of them and in their
    order, and nothing else that is no white space does; every white-space
    character left is the plain space; the result has no white space at its
    beginning or its end and is no longer than the text. *)
Theorem clean_text_keeps_the_words (x : text) :
  List.filter not_space (clean_text x)
  = List.filter (fun c => kept c && not_space c) x /\
  forallb kept (clean_text x) = true /\
  forallb plain_space (clean_text x) = true /\
  no_lead (clean_text x) = true /\
  no_trail (clean_text x) = true /\
  len (clean_text x) <= len x.
Proof.
  split; [apply clean_text_solid|].
  unfold clean_text, DocumentProcessor.clean_text. cbv zeta. fold kept.
  unfold strip. rewrite removal_is_filter.
  split; [|split; [|split; [|split]]].
  - apply rstrip_forallb, lstrip_forallb, ssp_forallb.
    generalize (sub_runs is_space (lit " ") x). intros s.
    induction s as [|c s IH]; [done|]. cbn [List.filter].
    rewrite negb_involutive. destruct (kept c) eqn:Hc; [|exact IH].
    cbn [forallb]. by rewrite Hc, IH.
  - apply rstrip_forallb, lstrip_forallb, ssp_forallb, filter_forallb,
      collapse_plain.
  - apply rstrip_no_lead, lstrip_no_lead.
  - apply rstrip_no_trail.
  - unfold len.
    pose proof (length_rstrip
                  (lstrip (sub_space_punct
                             (List.filter (fun c => negb (negb (kept c)))
                                (sub_runs is_space (lit " ") x))))).
    pose proof (length_lstrip
                  (sub_space_punct
                     (List.filter (fun c => negb (negb (kept c)))
                        (sub_runs is_space (lit " ") x)))).
    pose proof (length_ssp
                  (List.filter (fun c => negb (negb (kept c)))
                     (sub_runs is_space (lit " ") x))).
    pose proof (length_filter_le (fun c => negb (negb (kept c)))
                  (sub_runs is_space (lit " ") x)).
    pose proof (length_collapse x). lia.
Qed.

End CleanShapeFacts.

(** ** When a PDF yields text *)

(** No page of the file has any text. *)
Definition no_page_text (pages : list text) : bool :=
  forallb (fun p => bool_decide (p = [])) pages.

Lemma page_texts_grows (pages : list text) (n : nat) (acc : text) :
  exists more, page_texts n pages acc = acc ++ more.
Proof.
  revert n acc. induction pages as [|p pages IH]; intros n acc.
  - exists []. cbn. by rewrite app_nil_r.
  - cbn [page_texts]. destruct (bool_decide (p = [])); [apply IH|].
    destruct (IH (S n)
                (acc ++ nl ++ nl ++ lit "--- Page " ++ str_nat n
                     ++ lit " ---" ++ nl ++ nl ++ p)) as [more ->].
    eexists. rewrite <- app_assoc. reflexivity.
Qed.

Lemma page_texts_blank (pages : list text) (n : nat) (acc : text) :
  no_page_text pages = true -> page_texts n pages acc = acc.
Proof.
  revert n acc. induction pages as [|p pages IH]; intros n acc H; [done|].
  cbn [no_page_text forallb] in H. apply andb_true_iff in H as [Hp Hs].
  cbn [page_texts]. rewrite Hp. by apply IH.
Qed.

Lemma page_texts_marked (pages : list text) (n : nat) (acc : text) :
  no_page_text pages = false -> In 45%N (page_texts n pages acc).
Proof.
  revert n acc. induction pages as [|p pages IH]; intros n acc H; [done|].
  cbn [no_page_text forallb] in H. cbn [page_texts].
  destruct (bool_decide (p = [])) eqn:Hp.
  - apply IH. exact H.
  - destruct (page_texts_grows pages (S n)
                (acc ++ nl ++ nl ++ lit "--- Page " ++ str_nat n
                     ++ lit " ---" ++ nl ++ nl ++ p)) as [more ->].
    apply in_or_app. left. apply in_or_app. right.
    right. right. left. reflexivity.
Qed.

Section ExtractionFacts.

Variable unicode_word : N -> bool.
Variable dp : processor.
Variable pdf_pages : text -> result (list text).

Let clean_text := clean_text unicode_word.
Let extract_text_from_pdf := extract_text_from_pdf unicode_word pdf_pages.
Let process_pdf := process_pdf unicode_word dp pdf_pages.

Lemma hyphen_survives (t : text) : In 45%N t -> In 45%N (clean_text t).
Proof.
  intros H.
  pose proof (clean_text_solid unicode_word t) as Hf.
  assert (Hin : In 45%N (List.filter not_space (clean_text t))).
  { unfold clean_text. rewrite Hf. apply filter_In. split; [exact H|].
    reflexivity. }
  apply filter_In in Hin. tauto.
Qed.

Lemma strip_keeps_hyphen (t : text) : In 45%N t -> strip t <> [].
Proof.
  intros H Hs.
  assert (Hin : In 45%N (List.filter not_space (strip t))).
  { unfold strip. rewrite filter_rstrip, filter_lstrip.
    apply filter_In. by split. }
  rewrite Hs in Hin. exact Hin.
Qed.

(** X15: what [process_pdf] returns: the error of the reader, wrapped twice;
    the fixed message, wrapped twice, exactly when no page of the file has
    any text; and otherwise the chunks of the cleaned page texts.  A page whose text is
    only white space counts as text: its page marker is in the cleaned text,
    which is then not empty. *)
Theorem process_pdf_outcome (pdf_path filename : text) :
  process_pdf pdf_path filename
  = match pdf_pages pdf_path with
    | Raise e =>
        Raise (lit "Error processing PDF " ++ filename ++ lit ": "
                 ++ lit "Error extracting text from PDF: " ++ e)
    | Ok pages =>
        if no_page_text pages
        then Raise (lit "Error processing PDF " ++ filename ++ lit ": "
                      ++ lit "Error extracting text from PDF: "
                      ++ lit "No text could be extracted from PDF")
        else Ok (create_chunks dp (clean_text (page_texts 1 pages []))
                   filename)
    end /\
  (forall pages, no_page_text pages = false ->
     In 45%N (clean_text (page_texts 1 pages [])) /\
     0 < len (clean_text (page_texts 1 pages []))).
Proof.
  split.
  - unfold process_pdf, DocumentProcessor.process_pdf,
      DocumentProcessor.extract_text_from_pdf.
    destruct (pdf_pages pdf_path) as [pages|e]; [|done]. cbv zeta.
    destruct (no_page_text pages) eqn:Hp.
    + rewrite page_texts_blank by done. done.
    + rewrite bool_decide_eq_false_2
        by (apply strip_keeps_hyphen, page_texts_marked; exact Hp).
      done.
  - intros pages Hp.
    pose proof (hyphen_survives _ (page_texts_marked pages 1 [] Hp)) as Hin.
    split; [exact Hin|]. unfold len.
    destruct (clean_text (page_texts 1 pages [])); [destruct Hin|].
    cbn [length]. lia.
Qed.

End ExtractionFacts.

(** ** What a chat request leaves alone *)

Section ChatFrameFacts.

Context {float : Type}.
Variable fmt_2f : float -> text.
Variable retrieve_context : text -> result (list (context float)).
Variable sarvam_api_key : option text.
Variable sarvam : text -> result answer.
Variable validation_error : text.

Let chat_with :=
  chat float fmt_2f retrieve_context sarvam_api_key sarvam validation_error.

Lemma size_insert_bounds {A : Type} (k : text) (v : A) (m : gmap text A) :
  (size m <= size (<[k := v]> m) <= S (size m))%nat.
Proof. rewrite map_size_insert. destruct (m !! k); unfold id; lia. Qed.

(** X16: a chat request works on one session and on nothing else.  The
    session is the one named in the request, or the fresh one when the
    request names none or names the empty string; after the request the map
    holds it, whether an answer came or an error; every other session, the
    jobs, the upload and metadata directories, the index and the scheduled
    tasks are as before; the session count grows by one at most; an answer
    carries the id of the session, an error the status 500. *)
Theorem chat_touches_only_its_session (fresh t_user t_assistant : text)
    (m : chat_message) (st : app float) :
  let sid := session_of fresh m in
  let out := chat_with fresh t_user t_assistant m st in
  (cm_session_id m = None -> sid = fresh) /\
  (cm_session_id m = Some [] -> sid = fresh) /\
  (forall s, cm_session_id m = Some s -> s <> [] -> sid = s) /\
  is_Some (chat_sessions float out.1.2 !! sid) /\
  (forall other, other <> sid ->
     chat_sessions float out.1.2 !! other = chat_sessions float st !! other) /\
  (active_sessions float st <= active_sessions float out.1.2
     <= S (active_sessions float st))%nat /\
  job_status float out.1.2 = job_status float st /\
  uploads float out.1.2 = uploads float st /\
  processed float out.1.2 = processed float st /\
  index float out.1.2 = index float st /\
  background float out.1.2 = background float st /\
  match out.1.1 with
  | inr r => cr_session_id float r = sid
  | inl e => status_code e = 500
  end.
Proof.
  intros sid out.
  split; [|split; [|split]].
  { intros H. unfold sid, session_of. by rewrite H. }
  { intros H. unfold sid, session_of. by rewrite H. }
  { intros s H Hs. unfold sid, session_of. rewrite H.
    by rewrite bool_decide_eq_false_2. }
  subst out. unfold chat_with, chat. cbv zeta. fold sid.
  set (st1 := if bool_decide (chat_sessions float st !! sid = None)
              then with_chat_sessions float
                     (<[sid := []]> (chat_sessions float st)) st
              else st).
  assert (H1 : is_Some (chat_sessions float st1 !! sid) /\
               (forall other, other <> sid ->
                  chat_sessions float st1 !! other
                  = chat_sessions float st !! other) /\
               (active_sessions float st <= active_sessions float st1
                  <= S (active_sessions float st))%nat /\
               (is_Some (chat_sessions float st !! sid) -> st1 = st) /\
               job_status float st1 = job_status float st /\
               uploads float st1 = uploads float st /\
               processed float st1 = processed float st /\
               index float st1 = index float st /\
               background float st1 = background float st).
  { unfold st1, active_sessions.
    destruct (chat_sessions float st !! sid) as [h|] eqn:Hsid.
    - rewrite bool_decide_eq_false_2 by done. rewrite Hsid.
      repeat split; eauto; lia.
    - rewrite bool_decide_eq_true_2 by done.
      cbn [chat_sessions with_chat_sessions job_status uploads processed
             index background].
      rewrite lookup_insert_eq.
      split; [eauto|]. split.
      { intros other Ho. by rewrite lookup_insert_ne. }
      split; [apply size_insert_bounds|]. split; [|done].
      intros [? ?]. done. }
  clearbody st1.
  destruct H1 as (Hin & Hother & Hsize & Hsame & Hj & Hu & Hp & Hi & Hb).
  destruct (get_response float fmt_2f retrieve_context sarvam_api_key sarvam
              (cm_message m) (default [] (chat_sessions float st1 !! sid)))
    as [[[response sources]|e] sent].
  - cbn [fst snd chat_sessions with_chat_sessions job_status uploads
           processed index background cr_session_id].
    rewrite lookup_insert_eq. split; [eauto|]. split.
    { intros other Ho. rewrite lookup_insert_ne by done. by apply Hother. }
    split; [|repeat split; try done; by destruct response].
    unfold active_sessions in *.
    cbn [chat_sessions with_chat_sessions].
    destruct Hin as [h Hh].
    rewrite map_size_insert_Some by eauto. exact Hsize.
  - cbn [fst snd status_code]. done.
Qed.

End ChatFrameFacts.
